(** * farasa.py: the text surgery around the Farasa segmenter and tagger

    A shallow embedding of [src/farasa.py]: the regular expressions,
    [str.strip], [str.splitlines], [str.format], [getopt], and the order
    in which files are read, written and handed to the two tools.

    - A Python [str] is a list of Unicode code points ([text]).
    - The file store maps the identity of a file to what is there: a
      folder, or a file that holds the UTF-8 encoding of a text or bytes
      that are no UTF-8.  Which file a path names is up to the
      environment.  Python opens files in text mode: it reads with
      universal newlines and writes with the line separator of the
      platform; the tools see the files as they are on disk.
    - The two jar files are run as processes of which nothing is
      assumed: a process takes the command line and the store, and
      either cannot be started or leaves a store and its output.  What a
      theorem needs of a tool is among its hypotheses.
    - A Python exception is the [Raised] outcome of a computation; a
      computation on the store returns the store it leaves with either
      outcome.
    - File permissions and the encoding of the terminal are not
      modelled: [print] and [input] are events on texts.
    - The character tables are those of Unicode 14 (CPython 3.11). *)

From Stdlib Require Import NArith Ascii String List Lia Bool.
From stdpp Require Import base option list strings gmap.

Local Open Scope N_scope.

(** ** Text *)

Definition char := N.
Definition text := list char.

(** UTF-8 decoding of a source literal, so that the literals of farasa.py
    can be written here as they are written there. *)
Fixpoint utf8 (bs : list N) (need : nat) (acc : N) : text :=
  match bs with
  | [] => []
  | b :: bs' =>
    match need with
    | O =>
      if b <? 128 then b :: utf8 bs' 0%nat 0
      else if b <? 224 then utf8 bs' 1%nat (b - 192)
      else if b <? 240 then utf8 bs' 2%nat (b - 224)
      else utf8 bs' 3%nat (b - 240)
    | S O => (acc * 64 + (b - 128)) :: utf8 bs' 0%nat 0
    | S n => utf8 bs' n (acc * 64 + (b - 128))
    end
  end.

Definition U (s : string) : text :=
  utf8 (map N_of_ascii (list_ascii_of_string s)) 0%nat 0.

Definition LF : char := 10.
Definition CR : char := 13.
Definition SPACE : char := 32.
Definition HASH : char := 35.
Definition DOLLAR : char := 36.
Definition PLUS : char := 43.
Definition LBRACE : char := 123.
Definition PIPE : char := 124.
Definition RBRACE : char := 125.
Definition BACKSLASH : char := 92.
Definition MICRO : char := 181.
Definition TA_MARBUTA : char := 1577.

Definition in_range (lo hi c : N) : bool := (lo <=? c) && (c <=? hi).

Definition is_char (a : char) : char -> bool := N.eqb a.

Definition one_of (l : text) (c : char) : bool := existsb (N.eqb c) l.

(** ** Unicode tables used by [re] and [str] *)

(** First code points of the blocks of ten decimal digits (Unicode 14, the
    table behind [\d] and [str.isdecimal]); the mathematical digits
    U+1D7CE..U+1D7FF are five such blocks in a row. *)
Definition decimal_blocks : list N :=
  [48; 1632; 1776; 1984; 2406; 2534; 2662; 2790; 2918; 3046; 3174; 3302;
   3430; 3558; 3664; 3792; 3872; 4160; 4240; 6112; 6160; 6470; 6608; 6784;
   6800; 6992; 7088; 7232; 7248; 42528; 43216; 43264; 43472; 43504; 43600;
   44016; 65296; 66720; 68912; 69734; 69872; 69942; 70096; 70384; 70736;
   70864; 71248; 71360; 71472; 71904; 72016; 72784; 73040; 73120; 92768;
   92864; 93008; 120782; 120792; 120802; 120812; 120822; 123200; 123632;
   125264; 130032].

Definition is_decimal (c : char) : bool :=
  existsb (fun b => in_range b (b + 9) c) decimal_blocks.

(** [str.isspace] *)
Definition is_space (c : char) : bool :=
  in_range 9 13 c || in_range 28 32 c || one_of [133; 160; 5760] c
  || in_range 8192 8202 c || one_of [8232; 8233; 8239; 8287; 12288] c.

(** The line boundaries of [str.splitlines] *)
Definition is_linebreak (c : char) : bool :=
  in_range 10 13 c || in_range 28 30 c || one_of [133; 8232; 8233] c.

Definition is_ascii_letter (c : char) : bool :=
  in_range 97 122 c || in_range 65 90 c.

(** ** Outcomes *)

(** The exceptions the script can run into, named by where they arise:
    [BadTemplate] is [re.error] (or [IndexError] for an unknown group name)
    from compiling a replacement template, [BadFormat] the [ValueError] or
    [KeyError] of [str.format] on a malformed or named field, [BadIndex]
    its [IndexError] on a missing positional argument.  Of [open]:
    [NoSuchFile] is [FileNotFoundError], [IsADirectory] is
    [IsADirectoryError] ([PermissionError] on Windows), [NotUTF8] is
    [UnicodeDecodeError] and [NotEncodable] is [UnicodeEncodeError].
    [Other] stands for the exceptions that only the environment raises
    (an [OSError] of [subprocess.Popen] or [os.listdir], a [ValueError]
    for a path). *)
Inductive exn :=
  | BadTemplate
  | BadFormat
  | BadIndex
  | NoSuchFile
  | IsADirectory
  | NotUTF8
  | NotEncodable
  | Other (n : N).

Inductive outcome (A : Type) :=
  | Done (a : A)
  | Raised (e : exn).
Arguments Done {A} a.
Arguments Raised {A} e.

Definition bind {A B} (m : outcome A) (f : A -> outcome B) : outcome B :=
  match m with
  | Done a => f a
  | Raised e => Raised e
  end.

Notation "'let!' x ':=' m 'in' k" := (bind m (fun x => k))
  (at level 10, x name, m at level 100, k at level 200).

Definition fmap_outcome {A B} (f : A -> B) (m : outcome A) : outcome B :=
  let! a := m in Done (f a).

(** ** The fragment of [re] the script uses *)

Module Re.

(** A pattern is a sequence of items: one character of a class, or a
    greedy repetition [{lo,}] of a class. *)
Inductive item :=
  | One (p : char -> bool)
  | Many (p : char -> bool) (lo : nat).

Definition regex := list item.

Definition lit (s : text) : regex := map (fun c => One (is_char c)) s.

(** A greedy repetition [p{lo,}] followed by the rest of the pattern [k]:
    it first takes as many characters as it can and gives them back one
    at a time until [k] matches. *)
Fixpoint many (k : text -> option (text * text)) (p : char -> bool)
    (s : text) (lo : nat) {struct s} : option (text * text) :=
  let stop := match lo with O => k s | S _ => None end in
  match s with
  | c :: s' =>
    if p c then
      match many k p s' (Nat.pred lo) with
      | Some (m, rest) => Some (c :: m, rest)
      | None => stop
      end
    else stop
  | [] => stop
  end.

(** Backtracking match at the head of [s]: the matched prefix and the
    rest. *)
Fixpoint match_here (r : regex) (s : text) {struct r} : option (text * text) :=
  match r with
  | [] => Some ([], s)
  | One p :: r' =>
    match s with
    | c :: s' =>
      if p c then
        match match_here r' s' with
        | Some (m, rest) => Some (c :: m, rest)
        | None => None
        end
      else None
    | [] => None
    end
  | Many p lo :: r' => many (match_here r') p s lo
  end.

(** The least number of characters a match consumes. *)
Fixpoint min_len (r : regex) : nat :=
  match r with
  | [] => 0
  | One _ :: r' => S (min_len r')
  | Many _ lo :: r' => (lo + min_len r')%nat
  end.

(** Put a character in front of the first gap of a scan. *)
Definition push (c : char) (x : list (text * text) * text)
  : list (text * text) * text :=
  match x with
  | ([], tl) => ([], c :: tl)
  | ((g, m) :: l, tl) => ((c :: g, m) :: l, tl)
  end.

(** Left-to-right scan for non-overlapping matches: the list of (text
    before the match, match) and the text after the last match.  [skip]
    counts the characters of the current match still to be passed over.
    Every pattern of farasa.py consumes at least one character, so the
    rules of [re] for empty matches are not modelled: an empty match is
    treated as no match. *)
Fixpoint scan (r : regex) (s : text) (skip : nat)
  : list (text * text) * text :=
  match s with
  | [] => ([], [])
  | c :: s' =>
    match skip with
    | S k => scan r s' k
    | O =>
      match match_here r s with
      | Some (d :: m, _) =>
        let '(l, tl) := scan r s' (length m) in (([], d :: m) :: l, tl)
      | _ => push c (scan r s' 0%nat)
      end
    end
  end.

Definition finditer (r : regex) (s : text) : list (text * text) * text :=
  scan r s 0%nat.

(** [re.findall] for a pattern without groups, or whose one group is the
    whole pattern. *)
Definition findall (r : regex) (s : text) : list text :=
  map snd (fst (finditer r s)).

(** A compiled replacement template. *)
Inductive piece :=
  | Lit (c : char)
  | Whole.

Definition expand (tpl : list piece) (m : text) : text :=
  flat_map (fun p => match p with Lit c => [c] | Whole => m end) tpl.

(** Substitution with a compiled template. *)
Definition sub_with (r : regex) (tpl : list piece) (s : text) : text :=
  let '(l, tl) := finditer r s in
  flat_map (fun gm => fst gm ++ expand tpl (snd gm)) l ++ tl.

(** Compilation of a replacement template, for a pattern without groups,
    as CPython 3.11 does it.  In [\g<name>] a name that is no identifier
    is converted with [int]: group 0, the whole match, is the only group
    there is, so the name has to read as zero. *)

(** The white space [int] skips at both ends: the ASCII characters that
    C calls space, and the spaces of Unicode outside ASCII. *)
Definition is_int_space (c : char) : bool :=
  in_range 9 13 c || (c =? 32) || ((127 <=? c) && is_space c).

Fixpoint lstrip_int (s : text) : text :=
  match s with
  | c :: s' => if is_int_space c then lstrip_int s' else s
  | [] => []
  end.

Definition is_zero_digit (c : char) : bool := existsb (N.eqb c) decimal_blocks.

(** Digits that are all zero, with single underscores between them: the
    number of digits. *)
Fixpoint zero_digits (s : text) (after_digit : bool) : option nat :=
  match s with
  | [] => if after_digit then Some 0%nat else None
  | c :: s' =>
    if c =? 95 then
      if after_digit then zero_digits s' false else None
    else if is_zero_digit c then S <$> zero_digits s' true
    else None
  end.

(** [int(name) == 0]; [int] refuses more than 4300 digits (the default
    of [sys.set_int_max_str_digits]). *)
Definition names_group_zero (name : text) : bool :=
  let s := rev (lstrip_int (rev (lstrip_int name))) in
  let digits :=
    match s with
    | c :: s' => if (c =? 43) || (c =? 45) then s' else s
    | [] => s
    end in
  match zero_digits digits false with
  | Some n => (n <=? 4300)%nat
  | None => false
  end.

Definition is_octal (c : char) : bool := in_range 48 55 c.
Definition is_ascii_digit (c : char) : bool := in_range 48 57 c.

Definition escapes : list (char * char) :=
  [(97, 7); (98, 8); (102, 12); (110, 10); (114, 13); (116, 9); (118, 11);
   (92, 92)].

Definition lookup_escape (c : char) : option char :=
  snd <$> find (fun kv => fst kv =? c) escapes.

Definition consp (p : piece) (o : outcome (list piece)) :=
  fmap_outcome (cons p) o.

Fixpoint parse_template (s : text) : outcome (list piece) :=
  match s with
  | [] => Done []
  | c :: s1 =>
    if negb (c =? BACKSLASH) then consp (Lit c) (parse_template s1)
    else
      match s1 with
      | [] => Raised BadTemplate
      | e :: s2 =>
        if e =? 103 then
          (* \g<name>, up to the first > *)
          match s2 with
          | lt :: s3 =>
            if lt =? 60 then
              (fix name_until (t : text) (name : text)
                 : outcome (list piece) :=
                 match t with
                 | z :: t' =>
                   if z =? 62 then
                     if names_group_zero (rev name)
                     then consp Whole (parse_template t')
                     else Raised BadTemplate
                   else name_until t' (z :: name)
                 | [] => Raised BadTemplate
                 end) s3 []
            else Raised BadTemplate
          | [] => Raised BadTemplate
          end
        else if e =? 48 then
          (* \0 and up to two more octal digits *)
          match s2 with
          | n1 :: s3 =>
            if is_octal n1 then
              match s3 with
              | n2 :: s4 =>
                if is_octal n2
                then consp (Lit ((n1 - 48) * 8 + (n2 - 48))) (parse_template s4)
                else consp (Lit (n1 - 48)) (parse_template s3)
              | [] => Done [Lit (n1 - 48)]
              end
            else consp (Lit 0) (parse_template s2)
          | [] => Done [Lit 0]
          end
        else if is_ascii_digit e then
          (* three octal digits are a character, anything else refers to
             a group the pattern does not have *)
          match s2 with
          | n1 :: n2 :: s4 =>
            if is_octal e && is_octal n1 && is_octal n2 then
              let v := (e - 48) * 64 + (n1 - 48) * 8 + (n2 - 48) in
              if 255 <? v then Raised BadTemplate
              else consp (Lit v) (parse_template s4)
            else Raised BadTemplate
          | _ => Raised BadTemplate
          end
        else
          match lookup_escape e with
          | Some v => consp (Lit v) (parse_template s2)
          | None =>
            if is_ascii_letter e then Raised BadTemplate
            else consp (Lit BACKSLASH) (consp (Lit e) (parse_template s2))
          end
      end
  end.

(** [re.sub(pattern, repl, string)] *)
Definition sub (r : regex) (repl : text) (s : text) : outcome text :=
  let! tpl := parse_template repl in Done (sub_with r tpl s).

End Re.

(** ** The [str] methods the script uses *)

Module Str.

(** [str.strip()] *)
Fixpoint lstrip (s : text) : text :=
  match s with
  | c :: s' => if is_space c then lstrip s' else s
  | [] => []
  end.
Definition rstrip (s : text) : text := rev (lstrip (rev s)).
Definition strip (s : text) : text := rstrip (lstrip s).

(** [str.splitlines()]: [cur] is the line being read; CR LF is one
    boundary; a final boundary does not open a last empty line. *)
Fixpoint splitlines_from (s : text) (cur : text) : list text :=
  match s with
  | [] => match cur with [] => [] | _ => [cur] end
  | c :: s' =>
    if is_linebreak c then
      cur :: match s' with
             | d :: s'' =>
               if (c =? CR) && (d =? LF) then splitlines_from s'' []
               else splitlines_from s' []
             | [] => []
             end
    else splitlines_from s' (cur ++ [c])
  end.

Definition splitlines (s : text) : list text := splitlines_from s [].

(** [sep.join(l)] *)
Fixpoint join (sep : text) (l : list text) : text :=
  match l with
  | [] => []
  | [x] => x
  | x :: l' => x ++ sep ++ join sep l'
  end.

(** *** [str.format] with positional arguments that are strings *)

(** Automatic and manual field numbering cannot be mixed. *)
Inductive numbering :=
  | Init
  | Auto (next : nat)
  | Manual.

Definition decimal_value (c : char) : N :=
  match find (fun b => in_range b (b + 9) c) decimal_blocks with
  | Some b => c - b
  | None => 0
  end.

Definition all_decimal (s : text) : bool := forallb is_decimal s.

Definition int_of (s : text) : N :=
  fold_left (fun a c => a * 10 + decimal_value c) s 0.

(** [PY_SSIZE_T_MAX] on a 64-bit build. *)
Definition ssize_max : N := 9223372036854775807.

Definition get_arg (args : list text) (i : nat) : outcome text :=
  match args !! i with
  | Some a => Done a
  | None => Raised BadIndex
  end.

Definition consc (c : char) (o : outcome text) : outcome text :=
  fmap_outcome (cons c) o.

Definition prepend (a : text) (o : outcome text) : outcome text :=
  fmap_outcome (app a) o.

Section Format.

(** What [str.format] makes of a template from a replacement field on
    that carries an attribute or index accessor, a conversion or a format
    specification.  Attribute lookup on [str] objects and the format
    mini-language are not embedded; the rest of the formatting is. *)
Variable format_beyond : text -> list text -> numbering -> outcome text.

Variable args : list text.

(** [fld] is [None] in literal text and [Some name] inside a replacement
    field whose argument name read so far is [name]. *)
Fixpoint fmt (t : text) (fld : option text) (num : numbering) : outcome text :=
  match fld with
  | None =>
    match t with
    | [] => Done []
    | c :: t1 =>
      if c =? LBRACE then
        match t1 with
        | [] => Raised BadFormat
        | d :: t2 =>
          if d =? LBRACE then consc LBRACE (fmt t2 None num)
          else fmt t1 (Some []) num
        end
      else if c =? RBRACE then
        match t1 with
        | [] => Raised BadFormat
        | d :: t2 =>
          if d =? RBRACE then consc RBRACE (fmt t2 None num)
          else Raised BadFormat
        end
      else consc c (fmt t1 None num)
    end
  | Some name =>
    match t with
    | [] => Raised BadFormat
    | c :: t1 =>
      if c =? RBRACE then
        match name with
        | [] =>
          match num with
          | Manual => Raised BadFormat
          | Init =>
            let! a := get_arg args 0 in prepend a (fmt t1 None (Auto 1))
          | Auto n =>
            let! a := get_arg args n in prepend a (fmt t1 None (Auto (S n)))
          end
        | _ =>
          if all_decimal name then
            match num with
            | Auto _ => Raised BadFormat
            | _ =>
              if ssize_max <? int_of name then Raised BadFormat
              else
                let! a := get_arg args (N.to_nat (int_of name)) in
                prepend a (fmt t1 None Manual)
            end
          else Raised BadFormat
        end
      else if c =? LBRACE then Raised BadFormat
      else if one_of [46; 91; 33; 58] c then
        if all_decimal name
        then format_beyond (LBRACE :: name ++ c :: t1) args num
        else Raised BadFormat
      else fmt t1 (Some (name ++ [c])) num
    end
  end.

Definition format (t : text) : outcome text := fmt t None Init.

End Format.

End Str.

(** ** Files and processes *)

(** What a file holds: the UTF-8 encoding of a text, given by the text
    (UTF-8 is one-to-one on texts), or bytes that are no UTF-8. *)
Inductive content :=
  | Text (t : text)
  | Binary.

Inductive node :=
  | File (c : content)
  | Folder.

Abbreviation files := (gmap string node).

(** A computation on the file store that may raise: the store it leaves
    is there either way. *)
Definition io (A : Type) : Type := files -> outcome A * files.

Definition ret {A} (a : A) : io A := fun fs => (Done a, fs).

Definition lift {A} (o : outcome A) : io A := fun fs => (o, fs).

Definition iobind {A B} (m : io A) (k : A -> io B) : io B :=
  fun fs =>
    match m fs with
    | (Done a, fs1) => k a fs1
    | (Raised e, fs1) => (Raised e, fs1)
    end.

Notation "'do!' x ':=' m 'in' k" := (iobind m (fun x => k))
  (at level 10, x name, m at level 100, k at level 200).

(** Universal newlines, as reading in text mode applies them: [\r\n]
    and [\r] become [\n]. *)
Fixpoint universal (t : text) : text :=
  match t with
  | [] => []
  | c :: t' =>
    if c =? CR then
      LF :: match t' with
            | d :: t'' => if d =? LF then universal t'' else universal t'
            | [] => []
            end
    else c :: universal t'
  end.

(** On writing in text mode every [\n] becomes [os.linesep]. *)
Definition to_linesep (linesep : text) (t : text) : text :=
  flat_map (fun c => if c =? LF then linesep else [c]) t.

(** UTF-8 encodes every code point but the surrogates. *)
Definition encodable (t : text) : bool :=
  forallb (fun c => negb (in_range 55296 57343 c)) t.

(** ** farasa.py *)

(** The patterns of the script. *)

Definition ta_marbuta_regex : Re.regex := Re.lit (U "+ة").

Definition plus_regex : Re.regex := Re.lit (U "+").

(** [[a-zA-Z\d .;#\n\r]] *)
Definition non_ar_body (c : char) : bool :=
  is_ascii_letter c || is_decimal c || one_of (U " .;#" ++ [LF; CR]) c.

(** [[^\n\r]] *)
Definition not_newline (c : char) : bool := negb (one_of [LF; CR] c).

(** [[a-zA-Z\d.;#]] *)
Definition non_ar_last (c : char) : bool :=
  is_ascii_letter c || is_decimal c || one_of (U ".;#") c.

(** [([a-zA-Z\d .;#\n\r]{6,}[^\n\r][a-zA-Z\d.;#])] *)
Definition non_ar_regex : Re.regex :=
  [Re.Many non_ar_body 6; Re.One not_newline; Re.One non_ar_last].

(** [[#\|\$]] *)
Definition strip_regex : Re.regex := [Re.One (one_of (U "#|$"))].

Definition newline (c : char) : bool := one_of [LF; CR] c.

Definition placeholder : text := LF :: U "µµµ" ++ [LF].

(** [[\n\r]*S/S µ/PUNC µ/PUNC µ/PUNC E/E[\n\r]*] *)
Definition pattern : Re.regex :=
  Re.Many newline 0 :: Re.lit (U "S/S µ/PUNC µ/PUNC µ/PUNC E/E")
    ++ [Re.Many newline 0].

(** [### *[\n\r]*S/S] *)
Definition hashes_regex : Re.regex :=
  Re.lit (U "###") ++ [Re.Many (is_char SPACE) 0; Re.Many newline 0]
    ++ Re.lit (U "S/S").

(** [split_char] is [None] when the command line has no -s option.
    [split_char == "+"]: *)
Definition is_plus (split_char : option text) : bool :=
  match split_char with
  | Some [c] => c =? PLUS
  | _ => false
  end.

Definition segmenter_jar : text := U "dist/FarasaSegmenterJar.jar".
Definition tagger_jar : text := U "dist/FarasaPOSJar.jar".
Definition temp : text := U "temp.txt".

(** [cmd] of [_call]; [if outfp:] is false for the empty string. *)
Definition command_line (jarfp infp outfp : text) : list text :=
  [U "java"; U "-Dfile.encoding=UTF-8"; U "-jar"; jarfp; U "-i"; infp]
  ++ match outfp with
     | [] => []
     | _ => [U "-o"; outfp]
     end.

(** The post-processing of [segment] on the text of the output file.
    [if split_char:] is false for [None] and for the empty string. *)
Definition segment_text (restore_ta_marbuta : bool)
    (split_char : option text) (text0 : text) : outcome text :=
  let! text1 :=
    if restore_ta_marbuta
    then Re.sub ta_marbuta_regex (U "ة") text0
    else Done text0 in
  match split_char with
  | Some (c :: sc) => Re.sub plus_regex (c :: sc) text1
  | _ => Done text1
  end.

(** The pre-processing of [POS_tag] in removal mode. *)
Definition ditch (text0 : text) : outcome text :=
  let! ar_only := Re.sub non_ar_regex [LF] text0 in
  let! ar_only := Re.sub strip_regex [] ar_only in
  Done (Str.join [LF]
          (map Str.strip
             (filter (fun line => Str.strip line <> [])
                (Str.splitlines ar_only)))).

(** The pre-processing of [POS_tag] in preservation mode: the spans set
    aside and the text with a placeholder line in place of each. *)
Definition set_aside (text0 : text) : outcome (list text * text) :=
  let non_ar := Re.findall non_ar_regex text0 in
  let! ar_only := Re.sub non_ar_regex placeholder text0 in
  Done (non_ar, ar_only).

(** The environment.  [locate] is the file that a path names, or the
    exception that opening such a path raises whatever the store (an
    empty path, a NUL character).  [linesep] is [os.linesep].
    [creatable] tells whether a file that is not there can be created
    (its folder exists).  [popen] is [subprocess.Popen] with the
    [communicate] that follows: the process cannot be started, or it
    runs to its end and leaves a store and its standard output.
    [path_join] is [os.path.join] and [listdir] is [os.listdir]. *)
Class Env := {
  locate : text -> outcome string;
  linesep : text;
  creatable : string -> bool;
  popen : list text -> files -> outcome (files * content);
  path_join : text -> text -> text;
  listdir : text -> outcome (list text)
}.

Section Farasa.

Context {E : Env}.

(** The part of [str.format] left open in [Str.fmt]. *)
Variable format_beyond : text -> list text -> Str.numbering -> outcome text.

(** [with open(path, mode="r", encoding="utf-8") as file: file.read()] *)
Definition read (path : text) : io text :=
  fun fs =>
    (let! k := locate path in
     match fs !! k with
     | Some (File (Text t)) => Done (universal t)
     | Some (File Binary) => Raised NotUTF8
     | Some Folder => Raised IsADirectory
     | None => Raised NoSuchFile
     end, fs).

(** [with open(path, mode="w", encoding="utf-8") as file:
    file.write(t)].  Opening truncates the file; a text that cannot be
    encoded is refused as a whole and leaves the file empty. *)
Definition write (path : text) (t : text) : io unit :=
  fun fs =>
    match locate path with
    | Raised e => (Raised e, fs)
    | Done k =>
      let put :=
        if encodable t
        then (Done tt, <[k := File (Text (to_linesep linesep t))]> fs)
        else (Raised NotEncodable, <[k := File (Text [])]> fs) in
      match fs !! k with
      | Some Folder => (Raised IsADirectory, fs)
      | Some (File _) => put
      | None => if creatable k then put else (Raised NoSuchFile, fs)
      end
    end.

(** [_call(jarfp, infp, outfp)]: with an output path the tool is left to
    write its output file and nothing is returned; without one the
    standard output is returned, decoded.  The standard error and the
    exit status are dropped. *)
Definition _call (jarfp infp outfp : text) : io (option text) :=
  fun fs =>
    match popen (command_line jarfp infp outfp) fs with
    | Raised e => (Raised e, fs)
    | Done (fs1, stdout) =>
      match outfp with
      | [] =>
        match stdout with
        | Text t => (Done (Some t), fs1)
        | Binary => (Raised NotUTF8, fs1)
        end
      | _ => (Done None, fs1)
      end
    end.

Definition segment (infp outfp : text) (restore_ta_marbuta : bool)
    (split_char : option text) : io unit :=
  do! _ := _call segmenter_jar infp outfp in
  if restore_ta_marbuta || negb (is_plus split_char) then
    do! text0 := read outfp in
    do! text1 := lift (segment_text restore_ta_marbuta split_char text0) in
    write outfp text1
  else ret tt.

(** The post-processing of [POS_tag] in preservation mode, on the text
    the tagger wrote. *)
Definition put_back (non_ar : list text) (tagged : text) : outcome text :=
  let! ar_only := Re.sub pattern (U "{}") tagged in
  let! text1 := Str.format format_beyond non_ar ar_only in
  Re.sub hashes_regex (U "S/S #/PUNC #/PUNC #/PUNC") text1.

Definition POS_tag (infp outfp : text)
    (only_Arabic ditch_non_Arabic : bool) : io unit :=
  if negb only_Arabic && negb ditch_non_Arabic then
    do! _ := _call tagger_jar infp outfp in ret tt
  else
    do! text0 := read infp in
    do! pre :=
      lift (if ditch_non_Arabic
            then let! ar_only := ditch text0 in Done ([], ar_only)
            else set_aside text0) in
    do! _ := write temp pre.2 in
    do! _ := _call tagger_jar temp outfp in
    if negb ditch_non_Arabic then
      do! tagged := read outfp in
      do! text1 := lift (put_back pre.1 tagged) in
      write outfp text1
    else ret tt.

(** [os.path.isdir] and [os.path.isfile], which are false for a path
    that cannot be looked up. *)
Definition isdir (path : text) (fs : files) : bool :=
  match locate path with
  | Done k => match fs !! k with Some Folder => true | _ => false end
  | Raised _ => false
  end.

Definition isfile (path : text) (fs : files) : bool :=
  match locate path with
  | Done k => match fs !! k with Some (File _) => true | _ => false end
  | Raised _ => false
  end.

(** A file can be written at [k]: it is there, or can be created. *)
Definition writable (fs : files) (k : string) : Prop :=
  match fs !! k with
  | Some (File _) => True
  | Some Folder => False
  | None => creatable k = true
  end.

(** A tool that does its work, as a theorem may assume it of a jar
    file: started on an input path that names a file, with an output
    path at which a file can be written, it leaves there the text
    [f c], where [c] is what the input file holds, and changes nothing
    else. *)
Definition tool_writes (jarfp : text) (f : content -> text) : Prop :=
  forall fs infp outfp ki ko c,
    outfp <> [] ->
    locate infp = Done ki -> locate outfp = Done ko ->
    fs !! ki = Some (File c) -> writable fs ko ->
    exists stdout,
      popen (command_line jarfp infp outfp) fs
      = Done (<[ko := File (Text (f c))]> fs, stdout).

End Farasa.

(** ** What the specification says, in its own words *)

(** "Replace every occurrence of [+ة] with [ة]". *)
Fixpoint reconnect (t : text) : text :=
  match t with
  | [] => []
  | a :: t' =>
    match t' with
    | b :: t'' =>
      if (a =? PLUS) && (b =? TA_MARBUTA) then TA_MARBUTA :: reconnect t''
      else a :: reconnect t'
    | [] => [a]
    end
  end.

(** "Replace every remaining [+] with the split character". *)
Definition split_marker (c : char) (t : text) : text :=
  map (fun x => if x =? PLUS then c else x) t.

(** The stray symbols of removal mode. *)
Definition stray (c : char) : bool := one_of (U "#|$") c.

(** "Strip a small set of stray symbol characters". *)
Definition remove_stray (t : text) : text :=
  List.filter (fun c => negb (stray c)) t.

(** "Drop blank lines and trim each remaining line". *)
Definition tidy (t : text) : text :=
  Str.join [LF]
    (map Str.strip
       (filter (fun line => Str.strip line <> []) (Str.splitlines t))).

(** [g0 f0 g1 f1 ... tl]: the gaps of a scan with one filling after each,
    as far as both lists go. *)
Fixpoint weave (gaps fills : list text) (tl : text) : text :=
  match gaps, fills with
  | g :: gaps', f :: fills' => g ++ f ++ weave gaps' fills' tl
  | _, _ => tl
  end.

Definition is_brace (c : char) : bool := (c =? LBRACE) || (c =? RBRACE).

Definition brace_free (t : text) : bool := forallb (fun c => negb (is_brace c)) t.

(** The shape of a non-target span: at least six characters of the body
    class, one character that is no newline, one closing character. *)
Definition span_shape (span : text) : Prop :=
  exists run c d,
    span = run ++ [c; d] /\ (6 <= length run)%nat
    /\ Forall (fun x => non_ar_body x = true) run
    /\ not_newline c = true /\ non_ar_last d = true.

(** A template in which no [{] is followed, after decimal digits if any,
    by [.], [[], [!] or [:]: its replacement fields have no accessor, no
    conversion and no format specification. *)
Fixpoint opens_accessor (t : text) : bool :=
  match t with
  | c :: t' => if is_decimal c then opens_accessor t' else one_of (U ".[!:") c
  | [] => false
  end.

Fixpoint plain_fields (t : text) : bool :=
  match t with
  | [] => true
  | c :: t' =>
    (if c =? LBRACE then negb (opens_accessor t') else true) && plain_fields t'
  end.

(** Restoration as the specification describes it: the i-th occurrence of
    the placeholder pattern is replaced, literally, by the i-th span; it
    is defined when there are spans enough. *)
Definition restore (non_ar : list text) (tagged : text) : option text :=
  let '(l, tl) := Re.finditer pattern tagged in
  if decide (length l <= length non_ar)%nat
  then Some (weave (map fst l) non_ar tl)
  else None.

(** Number of occurrences of the placeholder pattern in the tagged text,
    that is, of slots opened by [put_back]. *)
Definition slots (tagged : text) : nat := length (Re.findall pattern tagged).

(** The repair of the tagging artifact: a run of [#] before a sentence
    start becomes three tagged [#] tokens. *)
Definition cleanup (t : text) : text :=
  Re.sub_with hashes_regex (map Re.Lit (U "S/S #/PUNC #/PUNC #/PUNC")) t.

(** The template [put_back] formats, read as what it is made of: the
    characters of the tagged text outside the placeholder occurrences,
    and a slot for each occurrence. *)
Inductive tok :=
  | L (c : char)
  | Slot.

Definition chars (ts : list tok) : text :=
  flat_map (fun t => match t with L c => [c] | Slot => [LBRACE; RBRACE] end) ts.

(** The slots filled in order, every other character kept. *)
Fixpoint fill (ts : list tok) (spans : list text) : option text :=
  match ts with
  | [] => Some []
  | L c :: ts' => cons c <$> fill ts' spans
  | Slot :: ts' =>
    match spans with
    | a :: spans' => app a <$> fill ts' spans'
    | [] => None
    end
  end.

Definition tokens_of (l : list (text * text)) (tl : text) : list tok :=
  flat_map (fun gm => map L gm.1 ++ [Slot]) l ++ map L tl.

Definition has_brace (ts : list tok) : bool :=
  existsb (fun t => match t with L c => is_brace c | Slot => false end) ts.

(** The field numbering is automatic and has handed out [i] arguments. *)
Definition auto_at (i : nat) (num : Str.numbering) : Prop :=
  num = Str.Auto i \/ (num = Str.Init /\ i = O).

(** A text that starts with a character that is no brace. *)
Definition starts_plain (a : text) : Prop :=
  exists h t, a = h :: t /\ is_brace h = false.

(** A character some item of the pattern accepts. *)
Definition accepts (r : Re.regex) (c : char) : bool :=
  existsb (fun it => match it with Re.One p => p c | Re.Many p _ => p c end) r.

(** A non-empty match at the head of the text: its first character, the
    others, and the text after it. *)
Definition hit (r : Re.regex) (s : text) : option (char * text * text) :=
  match Re.match_here r s with
  | Some (d :: m, rest) => Some (d, m, rest)
  | _ => None
  end.

(** Lines put together, a line feed between one and the next. *)
Fixpoint unlines (lines : list text) : text :=
  match lines with
  | [] => []
  | [l] => l
  | l :: ls => l ++ LF :: unlines ls
  end.

(** A line that is not blank and has nothing to strip: its first and its
    last character are no white space (so it has both), and it holds no
    line boundary. *)
Definition clean_line (l : text) : Prop :=
  is_space (hd SPACE l) = false /\ is_space (List.last l SPACE) = false
  /\ Forall (fun c => is_linebreak c = false) l.

(** The matches of a scan, each with the text that stands before it in
    the text scanned. *)
Fixpoint located (l : list (text * text)) (before : text)
  : list (text * text) :=
  match l with
  | [] => []
  | (g, m) :: l' => (before ++ g, m) :: located l' (before ++ g ++ m)
  end.

(** The non-target spans of a document with their places. *)
Definition spans_at (doc : text) : list (text * text) :=
  located (Re.finditer non_ar_regex doc).1 [].

(** ** Further notions used to describe the flows *)

(** The post-processing of [segment] for a one-character split marker:
    reconnect if asked, then mark. *)
Definition post (restore : bool) (c : char) (t : text) : text :=
  split_marker c (if restore then reconnect t else t).

(** Put [+] back where the split character stands. *)
Definition unmark (c : char) (t : text) : text :=
  map (fun x => if x =? c then PLUS else x) t.

(** The text without a given character. *)
Definition drop_char (c : char) (t : text) : text :=
  List.filter (fun x => negb (x =? c)) t.

(** Does the text hold [a] directly followed by [b]?  [a], [b], [c] in a
    row? *)
Fixpoint has_pair (a b : char) (t : text) : bool :=
  match t with
  | x :: t' =>
    match t' with
    | y :: _ => ((x =? a) && (y =? b)) || has_pair a b t'
    | [] => false
    end
  | [] => false
  end.

Fixpoint has_triple (a b c : char) (t : text) : bool :=
  match t with
  | x :: t' =>
    match t' with
    | y :: z :: _ => ((x =? a) && (y =? b) && (z =? c)) || has_triple a b c t'
    | _ => false
    end
  | [] => false
  end.

(** Does the text start with [b]?  With [b] and then [c]? *)
Definition starts (b : char) (t : text) : bool :=
  match t with
  | y :: _ => y =? b
  | [] => false
  end.

Definition starts2 (b c : char) (t : text) : bool :=
  match t with
  | y :: z :: _ => (y =? b) && (z =? c)
  | _ => false
  end.

(** ** The batch driver and the command line *)

(** What the user sees: [Say t] is a call [print(t)], with the text as
    it is before [print] adds the newline; [Ask t] is the prompt of a
    call [input(t)]. *)
Inductive event :=
  | Say (t : text)
  | Ask (t : text).

(** How a run of the script ends: [main] returns, [sys.exit], an
    exception of a flow that nothing catches, or [EOFError] from
    [input]. *)
Inductive ending :=
  | Returned
  | Exited (code : N)
  | Failed (e : exn)
  | EndOfInput.

Fixpoint text_eqb (a b : text) : bool :=
  match a, b with
  | [], [] => true
  | x :: a', y :: b' => (x =? y) && text_eqb a' b'
  | _, _ => false
  end.

(** [s.startswith(p)] *)
Fixpoint startswith (p s : text) : bool :=
  match p, s with
  | [], _ => true
  | x :: p', y :: s' => (x =? y) && startswith p' s'
  | _ :: _, [] => false
  end.

(** [getopt.getopt] of the standard library. *)
Module Getopt.

Inductive error :=
  | NotRecognized (long : bool) (opt : text)
  | RequiresArgument (long : bool) (opt : text)
  | NotUniquePrefix (opt : text)
  | MustNotHaveArgument (opt : text).

Definition dashes (long : bool) : text := if long then U "--" else U "-".

(** [str(e)] for the [GetoptError] raised. *)
Definition message (e : error) : text :=
  match e with
  | NotRecognized long o =>
    U "option " ++ dashes long ++ o ++ U " not recognized"
  | RequiresArgument long o =>
    U "option " ++ dashes long ++ o ++ U " requires argument"
  | NotUniquePrefix o => U "option --" ++ o ++ U " not a unique prefix"
  | MustNotHaveArgument o =>
    U "option --" ++ o ++ U " must not have an argument"
  end.

Definition COLON : char := 58.
Definition EQUALS : char := 61.
Definition DASH : char := 45.

Fixpoint short_has_arg (opt : char) (shortopts : text) : error + bool :=
  match shortopts with
  | [] => inl (NotRecognized false [opt])
  | c :: rest =>
    if (opt =? c) && negb (c =? COLON) then inr (starts COLON rest)
    else short_has_arg opt rest
  end.

(** The options of one argument [-xyz]; the flag tells whether the next
    argument was taken as the value of the last option. *)
Fixpoint do_shorts (shortopts optstring : text) (args : list text)
  : error + (list (text * text) * bool) :=
  match optstring with
  | [] => inr ([], false)
  | opt :: rest =>
    match short_has_arg opt shortopts with
    | inl e => inl e
    | inr true =>
      match rest with
      | [] =>
        match args with
        | [] => inl (RequiresArgument false [opt])
        | a :: _ => inr ([([DASH; opt], a)], true)
        end
      | _ => inr ([([DASH; opt], rest)], false)
      end
    | inr false =>
      match do_shorts shortopts rest args with
      | inl e => inl e
      | inr (l, used) => inr (([DASH; opt], []) :: l, used)
      end
    end
  end.

Definition mem (x : text) (l : list text) : bool := existsb (text_eqb x) l.

Definition long_has_args (opt : text) (longopts : list text)
  : error + (bool * text) :=
  let possibilities := List.filter (startswith opt) longopts in
  match possibilities with
  | [] => inl (NotRecognized true opt)
  | unique_match :: others =>
    if mem opt possibilities then inr (false, opt)
    else if mem (opt ++ [EQUALS]) possibilities then inr (true, opt)
    else
      match others with
      | _ :: _ => inl (NotUniquePrefix opt)
      | [] =>
        match rev unique_match with
        | c :: r => if c =? EQUALS then inr (true, rev r)
                    else inr (false, unique_match)
        | [] => inr (false, unique_match)
        end
      end
  end.

(** [opt[:i], opt[i+1:]] for the first [=] in [opt], if any. *)
Fixpoint split_equals (opt : text) : text * option text :=
  match opt with
  | [] => ([], None)
  | c :: rest =>
    if c =? EQUALS then ([], Some rest)
    else let '(name, optarg) := split_equals rest in (c :: name, optarg)
  end.

Definition do_longs (longopts : list text) (opt : text) (args : list text)
  : error + ((text * text) * bool) :=
  let '(name, optarg) := split_equals opt in
  match long_has_args name longopts with
  | inl e => inl e
  | inr (true, full) =>
    match optarg with
    | Some v => inr ((U "--" ++ full, v), false)
    | None =>
      match args with
      | [] => inl (RequiresArgument true full)
      | a :: _ => inr ((U "--" ++ full, a), true)
      end
    end
  | inr (false, full) =>
    match optarg with
    | Some _ => inl (MustNotHaveArgument full)
    | None => inr ((U "--" ++ full, []), false)
    end
  end.

(** The parsed options and the arguments left: parsing stops at the
    first argument that is no option, and after [--]. *)
Fixpoint getopt (shortopts : text) (longopts : list text) (args : list text)
  : error + (list (text * text) * list text) :=
  match args with
  | [] => inr ([], [])
  | a :: rest =>
    if startswith (U "-") a && negb (text_eqb a (U "-")) then
      if text_eqb a (U "--") then inr ([], rest)
      else
        let parsed :=
          if startswith (U "--") a then
            match do_longs longopts (skipn 2 a) rest with
            | inl e => inl e
            | inr (o, used) => inr ([o], used)
            end
          else do_shorts shortopts (skipn 1 a) rest in
        match parsed with
        | inl e => inl e
        | inr (os, used) =>
          let continue :=
            if used then
              match rest with
              | _ :: rest' => getopt shortopts longopts rest'
              | [] => inr ([], [])
              end
            else getopt shortopts longopts rest in
          match continue with
          | inl e => inl e
          | inr (os', remaining) => inr (os ++ os', remaining)
          end
        end
    else inr ([], args)
  end.

End Getopt.

(** The local variables of [main] that the options set. *)
Record options := {
  ditch_non_Arabic : bool;
  restore_ta_marbuta : bool;
  func : option text;
  infp : option text;
  outfp : option text;
  split_char : option text
}.

Definition no_options : options :=
  {| ditch_non_Arabic := false; restore_ta_marbuta := false;
     func := None; infp := None; outfp := None; split_char := None |}.

Definition QUOTE : text := [34].

Definition info : text :=
  Str.join [LF]
    [U "Command line arguments for farasa.py:";
     [];
     U "-h, --help: print help info";
     U "-d, --ditch_non_Arabic: to remove all non-Arabic text (for POS tagging)";
     U "-r, --restore_ta_marbuta: re-connect ta marbuta to the preceding token";
     [];
     U "-f, --func: either " ++ QUOTE ++ U "segment" ++ QUOTE ++ U " or "
       ++ QUOTE ++ U "POS_tag" ++ QUOTE;
     U "-i, --inpath: path to the input file (or folder, for batchprocessing)";
     U "-o, --outpath: path to the output file (or folder, for batchprocessing)";
     U "-s, --split_char: use this character to mark prefixes and suffixes after segmentation";
     []].

Definition opt_str : text := U "hdrf:i:o:s:".

Definition opt_list : list text :=
  [U "help"; U "ditch_non_Arabic"; U "restore_ta_marbuta"; U "func";
   U "inpath"; U "outpath"; U "split_char"].

Definition is_opt (opt : text) (names : list text) : bool :=
  Getopt.mem opt names.

(** The loop of [main] over the parsed options; [None] when the help
    option is met, at which [main] prints the help text and returns. *)
Fixpoint read_opts (opts : list (text * text)) (st : options) : option options :=
  match opts with
  | [] => Some st
  | (opt, arg) :: rest =>
    if is_opt opt [U "-h"; U "--help"] then None
    else if is_opt opt [U "-d"; U "--ditch_non_Arabic"] then
      read_opts rest
        {| ditch_non_Arabic := true;
           restore_ta_marbuta := restore_ta_marbuta st;
           func := func st; infp := infp st; outfp := outfp st;
           split_char := split_char st |}
    else if is_opt opt [U "-r"; U "--restore_ta_marbuta"] then
      read_opts rest
        {| ditch_non_Arabic := ditch_non_Arabic st;
           restore_ta_marbuta := true;
           func := func st; infp := infp st; outfp := outfp st;
           split_char := split_char st |}
    else if is_opt opt [U "-f"; U "--func"] then
      read_opts rest
        {| ditch_non_Arabic := ditch_non_Arabic st;
           restore_ta_marbuta := restore_ta_marbuta st;
           func := Some arg; infp := infp st; outfp := outfp st;
           split_char := split_char st |}
    else if is_opt opt [U "-i"; U "--inpath"] then
      read_opts rest
        {| ditch_non_Arabic := ditch_non_Arabic st;
           restore_ta_marbuta := restore_ta_marbuta st;
           func := func st; infp := Some arg; outfp := outfp st;
           split_char := split_char st |}
    else if is_opt opt [U "-o"; U "--outpath"] then
      read_opts rest
        {| ditch_non_Arabic := ditch_non_Arabic st;
           restore_ta_marbuta := restore_ta_marbuta st;
           func := func st; infp := infp st; outfp := Some arg;
           split_char := split_char st |}
    else if is_opt opt [U "-s"; U "--split_char"] then
      read_opts rest
        {| ditch_non_Arabic := ditch_non_Arabic st;
           restore_ta_marbuta := restore_ta_marbuta st;
           func := func st; infp := infp st; outfp := outfp st;
           split_char := Some arg |}
    else read_opts rest st
  end.

(** [not x] for a variable that is [None] or a string. *)
Definition falsy (x : option text) : bool :=
  match x with
  | Some (_ :: _) => false
  | _ => true
  end.

Definition value (x : option text) : text :=
  match x with
  | Some v => v
  | None => []
  end.

Definition finish (r : outcome unit) : ending :=
  match r with
  | Done _ => Returned
  | Raised e => Failed e
  end.

Section Script.

Context {E : Env}.
Variable format_beyond : text -> list text -> Str.numbering -> outcome text.

(** The loop of [batchprocess]: what it prints, how it ends, and the
    store it leaves. *)
Fixpoint batch_loop (flow : text -> text -> io unit)
    (infolder outfolder : text) (names : list text) (fs : files)
  : list event * (outcome unit * files) :=
  match names with
  | [] => ([], (Done tt, fs))
  | fn :: rest =>
    match flow (path_join infolder fn) (path_join outfolder fn) fs with
    | (Done _, fs') =>
      let '(ev, r) := batch_loop flow infolder outfolder rest fs' in
      (Say fn :: ev, r)
    | (Raised e, fs') => ([Say fn], (Raised e, fs'))
    end
  end.

Definition batchprocess (flow : text -> text -> io unit)
    (infolder outfolder : text) (fs : files)
  : list event * (outcome unit * files) :=
  match listdir infolder with
  | Done names => batch_loop flow infolder outfolder names fs
  | Raised e => ([], (Raised e, fs))
  end.

(** The end of [main]: folder, file, or neither. *)
Definition dispatch (flow : text -> text -> io unit)
    (i o : text) (fs : files) : list event * ending * files :=
  if isdir i fs then
    let '(ev, (r, fs')) := batchprocess flow i o fs in (ev, finish r, fs')
  else if isfile i fs then
    let '(r, fs') := flow i o fs in ([], finish r, fs')
  else ([Say (U "Aborting. No such file or folder:" ++ [SPACE] ++ i)],
        Returned, fs).

Definition prompt_func : text :=
  U "Please provide a function: `segment` or `POS_tag`: ".
Definition prompt_infp : text :=
  U "Please provide a path to an input file or folder: ".
Definition prompt_outfp : text :=
  U "Please provide a path to an output file or folder: ".

(** A path variable: its value if it has one, else a line of input,
    stripped. *)
Definition ask_path (prompt : text) (current : option text)
    (stdin : list text) : list event * option (text * list text) :=
  if falsy current then
    match stdin with
    | line :: rest => ([Ask prompt], Some (Str.strip line, rest))
    | [] => ([Ask prompt], None)
    end
  else ([], Some (value current, stdin)).

(** [main] once the options are read.  [segment] is called with what
    the options say, [POS_tag] with [only_Arabic] at its default. *)
Definition run (st : options) (fs : files) (stdin : list text)
  : list event * ending * files :=
  let asked :=
    if falsy (func st) then
      match stdin with
      | line :: rest =>
        if is_opt line [U "segment"; U "POS_tag"]
        then ([Ask prompt_func], inr (line, rest))
        else ([Ask prompt_func; Say (U "Aborting: unknown function.")],
              inl Returned)
      | [] => ([Ask prompt_func], inl EndOfInput)
      end
    else ([], inr (value (func st), stdin)) in
  match asked with
  | (ev1, inl e) => (ev1, e, fs)
  | (ev1, inr (f, stdin1)) =>
    match ask_path prompt_infp (infp st) stdin1 with
    | (ev2, None) => (ev1 ++ ev2, EndOfInput, fs)
    | (ev2, Some (i, stdin2)) =>
      match ask_path prompt_outfp (outfp st) stdin2 with
      | (ev3, None) => (ev1 ++ ev2 ++ ev3, EndOfInput, fs)
      | (ev3, Some (o, _)) =>
        let '(ev4, e, fs') :=
          if text_eqb f (U "segment") then
            dispatch
              (fun i o =>
                 segment i o (restore_ta_marbuta st) (split_char st))
              i o fs
          else if text_eqb f (U "POS_tag") then
            dispatch
              (fun i o =>
                 POS_tag format_beyond i o true (ditch_non_Arabic st))
              i o fs
          else ([], Returned, fs) in
        (ev1 ++ ev2 ++ ev3 ++ ev4, e, fs')
      end
    end
  end.

Definition main (argv : list text) (fs : files) (stdin : list text)
  : list event * ending * files :=
  match Getopt.getopt opt_str opt_list argv with
  | inl e =>
    ([Say (Getopt.message e);
      Say (U "Input incorrect: " ++ [LF] ++ info)],
     Exited 2, fs)
  | inr (opts, _) =>
    match read_opts opts no_options with
    | None => ([Say info], Returned, fs)
    | Some st => run st fs stdin
    end
  end.

End Script.

(** Command lines: the function and the two paths given with the short
    options, and the optional switches after them. *)
Definition command (f i o : text) : list text :=
  [U "-f"; f; U "-i"; i; U "-o"; o].

Definition switches (d r : bool) (s : option text) : list text :=
  (if d then [U "-d"] else []) ++ (if r then [U "-r"] else [])
  ++ match s with
     | Some v => [U "-s"; v]
     | None => []
     end.

(** The long options of the script that are meant to carry a value. *)
Definition valued_long : list text :=
  [U "func"; U "inpath"; U "outpath"; U "split_char"].

(** A text whose line ends are those of the platform: read in text
    mode and written back, it is the same text. *)
Definition native (linesep t : text) : Prop :=
  to_linesep linesep (universal t) = t.

(** How often [a] stands directly before [b]; how often [a], [b], [c]
    stand in a row. *)
Fixpoint count_pair (a b : char) (t : text) : nat :=
  match t with
  | x :: t' =>
    let n := count_pair a b t' in
    if (x =? a) && starts b t' then S n else n
  | [] => 0%nat
  end.

Fixpoint count_triple (a b c : char) (t : text) : nat :=
  match t with
  | x :: t' =>
    let n := count_triple a b c t' in
    if (x =? a) && starts2 b c t' then S n else n
  | [] => 0%nat
  end.

(** ** A small environment, to run the flows on examples *)

Module Demo.

(** Every non-empty path names a file of its own. *)
Definition locate (p : text) : outcome string :=
  match p with
  | [] => Raised NoSuchFile
  | _ => Done (string_of_list_ascii (map ascii_of_N p))
  end.

Definition linesep : text := [LF].

Definition creatable (_ : string) : bool := true.

(** A tool that writes [f] of what its input file holds to its output
    file, and does nothing when it has no input file or cannot write. *)
Definition popen (f : content -> text) (cmd : list text) (fs : files)
  : outcome (files * content) :=
  match cmd with
  | [_; _; _; _; _; i; _; o] =>
    match locate i, locate o with
    | Done ki, Done ko =>
      match fs !! ki, fs !! ko with
      | Some (File _), Some Folder => Done (fs, Text [])
      | Some (File c), _ => Done (<[ko := File (Text (f c))]> fs, Text [])
      | _, _ => Done (fs, Text [])
      end
    | _, _ => Done (fs, Text [])
    end
  | _ => Done (fs, Text [])
  end.

(** The tool that copies a text file, and writes an empty file for
    what is no text. *)
Definition copy (c : content) : text :=
  match c with
  | Text t => if encodable t then t else []
  | Binary => []
  end.

Definition format_beyond (_ : text) (_ : list text) (_ : Str.numbering)
  : outcome text := Raised BadFormat.

Definition path_join (a b : text) : text := a ++ 47 :: b.

(** The folder [in] holds [a.txt] and [b.txt], in this order. *)
Definition listdir (p : text) : outcome (list text) :=
  if text_eqb p (U "in") then Done [U "a.txt"; U "b.txt"]
  else Raised NoSuchFile.

Definition env (f : content -> text) : Env :=
  Build_Env locate linesep creatable (popen f) path_join listdir.

End Demo.

(** What [segment] leaves in the output file, given what the tool left
    there: a file rewritten in text mode, or the file as it was. *)
Definition resegmented {E : Env} (r : bool) (c : char) (raw : text) : text :=
  if r || negb (c =? PLUS)
  then to_linesep linesep (post r c (universal raw))
  else raw.

(** A flow that, for an input path that names a file and an output path
    at which a file can be written, leaves [g] of what the input file
    holds in the output file, and changes nothing else. *)
Definition transforms {E : Env} (flow : text -> text -> io unit)
    (g : content -> text) : Prop :=
  forall fs i o ki ko c,
    o <> [] -> locate i = Done ki -> locate o = Done ko ->
    fs !! ki = Some (File c) -> writable fs ko ->
    flow i o fs = (Done tt, <[ko := File (Text (g c))]> fs).

(** ** Facts about the matcher *)

Section ReFacts.

Import Re.

Lemma many_app k p :
  (forall s m rest, k s = Some (m, rest) -> s = m ++ rest) ->
  forall s lo m rest, many k p s lo = Some (m, rest) -> s = m ++ rest.
Proof.
  intros Hk s. induction s as [|c s IH]; intros lo m rest H; simpl in H.
  - destruct lo; [eauto | discriminate].
  - destruct (p c).
    + destruct (many k p s (Nat.pred lo)) as [[m' rest']|] eqn:E.
      * inversion H; subst. simpl. f_equal. eapply IH; eassumption.
      * destruct lo; [eauto | discriminate].
    + destruct lo; [eauto | discriminate].
Qed.

Lemma match_here_app r :
  forall s m rest, match_here r s = Some (m, rest) -> s = m ++ rest.
Proof.
  induction r as [|[p|p lo] r IH]; intros s m rest H; simpl in H.
  - inversion H; reflexivity.
  - destruct s as [|c s]; [discriminate|].
    destruct (p c); [|discriminate].
    destruct (match_here r s) as [[m' rest']|] eqn:E; [|discriminate].
    inversion H; subst. simpl. f_equal. eauto.
  - eapply many_app; eauto.
Qed.

Lemma scan_skip r a :
  forall s, scan r (a ++ s) (length a) = scan r s 0%nat.
Proof. induction a as [|c a IH]; intros s; simpl; [reflexivity | apply IH]. Qed.

Lemma scan_match r c s d m rest :
  match_here r (c :: s) = Some (d :: m, rest) ->
  scan r (c :: s) 0%nat
  = let '(l, tl) := scan r rest 0%nat in (([], d :: m) :: l, tl).
Proof.
  intros H. simpl scan. rewrite H.
  apply match_here_app in H. simpl in H. inversion H; subst.
  rewrite scan_skip. reflexivity.
Qed.

Lemma scan_nomatch r c s :
  match_here r (c :: s) = None ->
  scan r (c :: s) 0%nat = push c (scan r s 0%nat).
Proof. intros H. simpl scan. rewrite H. reflexivity. Qed.

(** What a scan found, put back together, is the text scanned. *)
Lemma scan_text r :
  forall n s, (length s <= n)%nat ->
  flat_map (fun gm => gm.1 ++ gm.2) (scan r s 0%nat).1 ++ (scan r s 0%nat).2 = s.
Proof.
  induction n as [|n IH]; intros s Hn.
  - destruct s; [reflexivity | simpl in Hn; lia].
  - destruct s as [|c s]; [reflexivity|].
    destruct (match_here r (c :: s)) as [[[|d m] rest]|] eqn:E.
    + simpl scan. rewrite E.
      assert (Hs : (length s <= n)%nat) by (simpl in Hn; lia).
      specialize (IH s Hs). destruct (scan r s 0%nat) as [[|[g m'] l] tl];
        simpl in *; congruence.
    + rewrite (scan_match _ _ _ _ _ _ E).
      pose proof (match_here_app _ _ _ _ E) as Hs.
      assert (Hr : (length rest <= n)%nat).
      { apply (f_equal (@length _)) in Hs. rewrite length_app in Hs.
        simpl in *. lia. }
      specialize (IH rest Hr). destruct (scan r rest 0%nat) as [l tl].
      simpl in *. rewrite <- app_assoc. rewrite IH. congruence.
    + rewrite (scan_nomatch _ _ _ E).
      assert (Hs : (length s <= n)%nat) by (simpl in Hn; lia).
      specialize (IH s Hs). destruct (scan r s 0%nat) as [[|[g m'] l] tl];
        simpl in *; congruence.
Qed.

Lemma scan_hit r c s d m rest :
  hit r (c :: s) = Some (d, m, rest) ->
  c :: s = d :: m ++ rest
  /\ scan r (c :: s) 0%nat
     = let '(l, tl) := scan r rest 0%nat in (([], d :: m) :: l, tl).
Proof.
  unfold hit. intros H.
  destruct (match_here r (c :: s)) as [[[|d' m'] rest']|] eqn:E;
    try discriminate.
  inversion H; subst. split.
  - apply (match_here_app _ _ _ _ E).
  - apply scan_match, E.
Qed.

Lemma scan_miss r c s :
  hit r (c :: s) = None -> scan r (c :: s) 0%nat = push c (scan r s 0%nat).
Proof.
  unfold hit. intros H. simpl scan.
  destruct (match_here r (c :: s)) as [[[|d' m'] rest']|]; try discriminate;
    reflexivity.
Qed.

(** Induction along a scan. *)
Lemma hit_ind r (P : text -> Prop) :
  P [] ->
  (forall c s d m rest,
      hit r (c :: s) = Some (d, m, rest) -> c :: s = d :: m ++ rest ->
      P rest -> P (c :: s)) ->
  (forall c s, hit r (c :: s) = None -> P s -> P (c :: s)) ->
  forall s, P s.
Proof.
  intros Hnil Hhit Hmiss s.
  remember (length s) as n eqn:Hn. revert s Hn.
  induction n as [n IH] using lt_wf_ind. intros [|c s] Hn; [exact Hnil|].
  destruct (hit r (c :: s)) as [[[d m] rest]|] eqn:E.
  - destruct (scan_hit _ _ _ _ _ _ E) as [Hs _].
    apply (Hhit _ _ _ _ _ E Hs). apply (IH (length rest)); [|reflexivity].
    subst n. rewrite Hs. simpl. rewrite length_app. lia.
  - apply (Hmiss _ _ E). apply (IH (length s)); [|reflexivity].
    subst n. simpl. lia.
Qed.

Lemma sub_with_nil r tpl : sub_with r tpl [] = [].
Proof. reflexivity. Qed.

Lemma sub_with_hit r tpl c s d m rest :
  hit r (c :: s) = Some (d, m, rest) ->
  sub_with r tpl (c :: s) = expand tpl (d :: m) ++ sub_with r tpl rest.
Proof.
  intros H. unfold sub_with, finditer.
  destruct (scan_hit _ _ _ _ _ _ H) as [_ ->].
  destruct (scan r rest 0%nat) as [l tl]. simpl. now rewrite <- app_assoc.
Qed.

Lemma sub_with_miss r tpl c s :
  hit r (c :: s) = None -> sub_with r tpl (c :: s) = c :: sub_with r tpl s.
Proof.
  intros H. unfold sub_with, finditer. rewrite (scan_miss _ _ _ H).
  destruct (scan r s 0%nat) as [[|[g m] l] tl]; reflexivity.
Qed.

Lemma findall_nil r : findall r [] = [].
Proof. reflexivity. Qed.

Lemma findall_hit r c s d m rest :
  hit r (c :: s) = Some (d, m, rest) ->
  findall r (c :: s) = (d :: m) :: findall r rest.
Proof.
  intros H. unfold findall, finditer.
  destruct (scan_hit _ _ _ _ _ _ H) as [_ ->].
  destruct (scan r rest 0%nat) as [l tl]. reflexivity.
Qed.

Lemma findall_miss r c s :
  hit r (c :: s) = None -> findall r (c :: s) = findall r s.
Proof.
  intros H. unfold findall, finditer. rewrite (scan_miss _ _ _ H).
  destruct (scan r s 0%nat) as [[|[g m] l] tl]; reflexivity.
Qed.

(** Without a match, a substitution changes nothing. *)
Lemma sub_with_no_match r tpl s : findall r s = [] -> sub_with r tpl s = s.
Proof.
  induction s as [|c s d m rest H Hs IH|c s H IH] using (hit_ind r);
    intros Hf.
  - reflexivity.
  - rewrite (findall_hit _ _ _ _ _ _ H) in Hf. discriminate.
  - rewrite (findall_miss _ _ _ H) in Hf.
    rewrite (sub_with_miss _ _ _ _ H). f_equal. auto.
Qed.

End ReFacts.

(** ** Reading, writing and running a tool *)

Section IoFacts.

Context {E : Env}.

Lemma universal_step c t :
  universal (c :: t)
  = if c =? CR then
      LF :: match t with
            | d :: t' => if d =? LF then universal t' else universal t
            | [] => []
            end
    else c :: universal t.
Proof. destruct t; reflexivity. Qed.

(** Induction on a text two characters at a time. *)
Lemma text_pair_ind (P : text -> Prop) :
  P [] -> (forall a, P [a]) ->
  (forall a b t, P t -> P (b :: t) -> P (a :: b :: t)) ->
  forall t, P t.
Proof.
  intros H0 H1 H2 t. enough (P t /\ forall a, P (a :: t)) by tauto.
  induction t as [|b t [IH1 IH2]]; split; auto.
Qed.

Lemma universal_id t : ~ In CR t -> universal t = t.
Proof.
  induction t as [|c t IH]; intros H; [reflexivity|].
  rewrite universal_step.
  destruct (N.eqb_spec c CR) as [->|_]; [exfalso; apply H; now left|].
  f_equal. apply IH. intros Hin. apply H. now right.
Qed.

Lemma to_linesep_lf t : to_linesep [LF] t = t.
Proof.
  unfold to_linesep. induction t as [|c t IH]; [reflexivity|].
  cbn [flat_map]. rewrite IH.
  destruct (N.eqb_spec c LF) as [->|_]; reflexivity.
Qed.

(** Where the line separator is the line feed, a text without carriage
    returns has the line ends of the platform. *)
Lemma native_lf t : ~ In CR t -> native [LF] t.
Proof. intros H. unfold native. now rewrite universal_id, to_linesep_lf. Qed.

Lemma encodable_universal t : encodable t = true -> encodable (universal t) = true.
Proof.
  induction t as [|a|a b t IH1 IH2] using text_pair_ind; intros H.
  - reflexivity.
  - rewrite universal_step. destruct (a =? CR); [reflexivity | exact H].
  - rewrite universal_step.
    cbn [encodable forallb] in H. apply andb_true_iff in H.
    destruct H as [Ha H]. pose proof H as Hbt.
    apply andb_true_iff in H. destruct H as [Hb Ht].
    destruct (a =? CR).
    + destruct (b =? LF); cbn [encodable forallb]; cbn [andb negb in_range];
        [apply IH1, Ht | apply IH2, Hbt].
    + cbn [encodable forallb]. rewrite Ha. apply IH2, Hbt.
Qed.

Lemma iobind_ext {A B} (m : io A) (k1 k2 : A -> io B) fs :
  (forall a fs1, k1 a fs1 = k2 a fs1) -> iobind m k1 fs = iobind m k2 fs.
Proof.
  intros H. unfold iobind. destruct (m fs) as [[a|e] fs1]; [apply H|reflexivity].
Qed.

Lemma read_text path k t fs :
  locate path = Done k -> fs !! k = Some (File (Text t)) ->
  read path fs = (Done (universal t), fs).
Proof. intros Hk Ht. unfold read. rewrite Hk. cbn [bind]. now rewrite Ht. Qed.

Lemma write_text path k t fs :
  locate path = Done k -> writable fs k -> encodable t = true ->
  write path t fs = (Done tt, <[k := File (Text (to_linesep linesep t))]> fs).
Proof.
  intros Hk Hw He. unfold write, writable in *. rewrite Hk, He.
  destruct (fs !! k) as [[c|]|]; [reflexivity | destruct Hw | now rewrite Hw].
Qed.

Lemma writable_insert fs k k' c :
  writable fs k -> writable (<[k' := File c]> fs) k.
Proof.
  unfold writable. destruct (decide (k = k')) as [->|Hne].
  - now rewrite lookup_insert_eq.
  - now rewrite lookup_insert_ne by congruence.
Qed.

Lemma writable_file fs k c : fs !! k = Some (File c) -> writable fs k.
Proof. unfold writable. now intros ->. Qed.

Lemma call_tool jarfp f infp outfp ki ko c fs :
  tool_writes jarfp f -> outfp <> [] ->
  locate infp = Done ki -> locate outfp = Done ko ->
  fs !! ki = Some (File c) -> writable fs ko ->
  _call jarfp infp outfp fs = (Done None, <[ko := File (Text (f c))]> fs).
Proof.
  intros Htool Ho Hi Hko Hc Hw. unfold _call.
  destruct (Htool fs infp outfp ki ko c Ho Hi Hko Hc Hw) as [out ->].
  destruct outfp; [contradiction | reflexivity].
Qed.

End IoFacts.

(** ** The segmentation flow *)

Section SegmentFacts.

Import Re.

Context {E : Env}.

Lemma hit_ta_marbuta s :
  hit ta_marbuta_regex s
  = match s with
    | a :: b :: t =>
      if (a =? PLUS) && (b =? TA_MARBUTA) then Some (a, [b], t) else None
    | _ => None
    end.
Proof.
  change ta_marbuta_regex with [One (is_char PLUS); One (is_char TA_MARBUTA)].
  unfold hit, is_char.
  destruct s as [|a [|b t]]; cbn -[N.eqb];
    rewrite ?(N.eqb_sym PLUS), ?(N.eqb_sym TA_MARBUTA).
  - reflexivity.
  - destruct (a =? PLUS); reflexivity.
  - destruct (a =? PLUS); cbn -[N.eqb]; [|reflexivity].
    destruct (b =? TA_MARBUTA); reflexivity.
Qed.

Lemma hit_plus s :
  hit plus_regex s
  = match s with
    | a :: t => if a =? PLUS then Some (a, [], t) else None
    | [] => None
    end.
Proof.
  change plus_regex with [One (is_char PLUS)].
  unfold hit, is_char.
  destruct s as [|a t]; cbn -[N.eqb]; rewrite ?(N.eqb_sym PLUS);
    [reflexivity|].
  destruct (a =? PLUS); reflexivity.
Qed.

(** The first substitution of [segment] does what the specification
    says. *)
Lemma sub_ta_marbuta t :
  Re.sub ta_marbuta_regex (U "ة") t = Done (reconnect t).
Proof.
  unfold Re.sub.
  change (parse_template (U "ة")) with (Done [Lit TA_MARBUTA]).
  simpl. f_equal.
  induction t as [|c s d m rest H Hs IH|c s H IH]
    using (hit_ind ta_marbuta_regex).
  - reflexivity.
  - rewrite (sub_with_hit _ _ _ _ _ _ _ H), IH.
    rewrite hit_ta_marbuta in H. destruct s as [|b t]; [discriminate|].
    simpl reconnect. destruct ((c =? PLUS) && (b =? TA_MARBUTA));
      [|discriminate].
    inversion H; subst. reflexivity.
  - rewrite (sub_with_miss _ _ _ _ H), IH.
    rewrite hit_ta_marbuta in H. destruct s as [|b t]; [reflexivity|].
    simpl reconnect. destruct ((c =? PLUS) && (b =? TA_MARBUTA));
      [discriminate | reflexivity].
Qed.

(** So does the second, for a split character that is no backslash. *)
Lemma sub_plus c t :
  c <> BACKSLASH -> Re.sub plus_regex [c] t = Done (split_marker c t).
Proof.
  intros Hc. unfold Re.sub. simpl parse_template.
  apply N.eqb_neq in Hc. rewrite Hc. simpl. f_equal.
  induction t as [|x t IH]; [reflexivity|].
  pose proof (hit_plus (x :: t)) as H. simpl in H |- *.
  destruct (x =? PLUS).
  - rewrite (sub_with_hit _ _ _ _ _ _ _ H), IH. reflexivity.
  - rewrite (sub_with_miss _ _ _ _ H), IH. reflexivity.
Qed.

Lemma reconnect_app pre s :
  hd_error s <> Some TA_MARBUTA ->
  reconnect (pre ++ s) = reconnect pre ++ reconnect s.
Proof.
  intros Hs. remember (length pre) as n eqn:Hn. revert pre Hn.
  induction n as [n IH] using lt_wf_ind. intros [|a [|b p]] Hn.
  - reflexivity.
  - destruct s as [|x s]; [reflexivity|]. simpl.
    destruct (N.eqb_spec x TA_MARBUTA) as [->|_];
      [now contradiction Hs|].
    now rewrite andb_false_r.
  - change (reconnect ((a :: b :: p) ++ s))
      with (if (a =? PLUS) && (b =? TA_MARBUTA)
            then TA_MARBUTA :: reconnect (p ++ s)
            else a :: reconnect ((b :: p) ++ s)).
    change (reconnect (a :: b :: p))
      with (if (a =? PLUS) && (b =? TA_MARBUTA)
            then TA_MARBUTA :: reconnect p
            else a :: reconnect (b :: p)).
    simpl in Hn.
    destruct ((a =? PLUS) && (b =? TA_MARBUTA)).
    + rewrite (IH (length p)); [reflexivity | lia | reflexivity].
    + rewrite (IH (length (b :: p))); [reflexivity | simpl; lia | reflexivity].
Qed.

Lemma reconnect_kitaba pre post :
  reconnect (pre ++ U "كتاب+ة" ++ post)
  = reconnect pre ++ U "كتابة" ++ reconnect post.
Proof.
  rewrite reconnect_app by (vm_compute; discriminate).
  apply (f_equal (app (reconnect pre))). vm_compute. reflexivity.
Qed.

Lemma segment_text_both c t :
  c <> BACKSLASH ->
  segment_text true (Some [c]) t = Done (split_marker c (reconnect t)).
Proof.
  intros Hc. unfold segment_text. rewrite sub_ta_marbuta. simpl.
  now apply sub_plus.
Qed.

(** After a reconnected ta marbuta comes what the tool wrote next, read
    the same way. *)
Lemma reconnect_starts c t :
  starts c (split_marker c (reconnect t))
  = if starts2 PLUS TA_MARBUTA t then TA_MARBUTA =? c
    else starts PLUS t || starts c t.
Proof.
  destruct t as [|a [|b t]].
  - reflexivity.
  - cbn [reconnect split_marker map starts starts2].
    destruct (N.eqb_spec a PLUS) as [->|Ha]; [now rewrite N.eqb_refl|].
    reflexivity.
  - change (reconnect (a :: b :: t))
      with (if (a =? PLUS) && (b =? TA_MARBUTA)
            then TA_MARBUTA :: reconnect t
            else a :: reconnect (b :: t)).
    cbn [starts2 starts].
    destruct ((a =? PLUS) && (b =? TA_MARBUTA)) eqn:Eab.
    + cbn [split_marker map starts]. reflexivity.
    + cbn [split_marker map starts].
      destruct (N.eqb_spec a PLUS) as [->|Ha]; [now rewrite N.eqb_refl|].
      reflexivity.
Qed.

Lemma split_marker_app c a b :
  split_marker c (a ++ b) = split_marker c a ++ split_marker c b.
Proof. apply map_app. Qed.


(** C6. With the reconnect flag unset and the default split character
    [+], [segment] stops after the call of the segmenter: it opens no
    file, and the store is left as the tool left it. *)
Theorem segment_default_untouched (fs : files) (infp outfp : text) :
  segment infp outfp false (Some (U "+")) fs
  = let '(r, fs1) := _call segmenter_jar infp outfp fs in
    (match r with
     | Done _ => Done tt
     | Raised e => Raised e
     end, fs1).
Proof.
  unfold segment, iobind.
  destruct (_call segmenter_jar infp outfp fs) as [[r|e] fs1]; reflexivity.
Qed.

End SegmentFacts.


(** C1 as the specification words it does not hold.  A backslash is a
    split character that [re.sub] does not take literally: the second
    substitution raises.  And the split character stands next to the
    reconnected ta marbuta when the tool wrote a [+] after it. *)
Lemma segment_marker_next_to_ta_marbuta :
  segment_text true (Some [BACKSLASH]) (U "كتاب+ة") = Raised BadTemplate
  /\ segment_text true (Some (U "@")) (U "كتاب+ة+ها") = Done (U "كتابة@ها")
  /\ has_pair TA_MARBUTA 64 (U "كتابة@ها") = true.
Proof. repeat split; vm_compute; reflexivity. Qed.

(** ** The tagging flow: removal mode *)

Section DitchFacts.

Context {E : Env}.
Variable format_beyond : text -> list text -> Str.numbering -> outcome text.

(** In removal mode the pre-processed text is written to the temporary
    file, the tagger is run on that file, and its output is final. *)
Lemma POS_tag_ditch (fs : files) (infp outfp : text) (only_Arabic : bool)
    (doc pre : text) :
  read infp fs = (Done doc, fs) ->
  ditch doc = Done pre ->
  POS_tag format_beyond infp outfp only_Arabic true fs
  = (do! _ := write temp pre in
     do! _ := _call tagger_jar temp outfp in ret tt) fs.
Proof.
  intros Hin Hpre. unfold POS_tag. rewrite andb_false_r.
  unfold iobind at 1. rewrite Hin. unfold iobind at 1, lift at 1.
  rewrite Hpre. cbn [bind snd negb]. reflexivity.
Qed.

(** C8. On the document [Hello world. مرحبا بالعالم], tagging with
    [ditch_non_Arabic=True] removes the Latin sentence: the text written
    to the temporary file, on which the tagger is then run, is the
    Arabic sentence alone. *)
Theorem hello_world_removed (fs : files) (infp outfp : text)
    (only_Arabic : bool) :
  read infp fs = (Done (U "Hello world. مرحبا بالعالم"), fs) ->
  POS_tag format_beyond infp outfp only_Arabic true fs
  = (do! _ := write temp (U "مرحبا بالعالم") in
     do! _ := _call tagger_jar temp outfp in ret tt) fs.
Proof.
  intros Hin. apply (POS_tag_ditch _ _ _ _ _ _ Hin).
  vm_compute. reflexivity.
Qed.

End DitchFacts.

Lemma hello_world_removed_witness :
  let E := Demo.env Demo.copy in
  let fs : files :=
    {[ "in.txt"%string := File (Text (U "Hello world. مرحبا بالعالم")) ]} in
  read (U "in.txt") fs = (Done (U "Hello world. مرحبا بالعالم"), fs)
  /\ POS_tag Demo.format_beyond (U "in.txt") (U "out.txt") true true fs
     = (do! _ := write temp (U "مرحبا بالعالم") in
        do! _ := _call tagger_jar temp (U "out.txt") in ret tt) fs.
Proof.
  intros E fs.
  assert (H : read (U "in.txt") fs
              = (Done (U "Hello world. مرحبا بالعالم"), fs))
    by (vm_compute; reflexivity).
  split; [exact H|].
  exact (hello_world_removed Demo.format_beyond fs (U "in.txt") (U "out.txt")
           true H).
Defined.

(** On that example the tagger is handed the Arabic sentence and its
    output is the output file. *)
Example hello_world_run :
  let E := Demo.env Demo.copy in
  POS_tag Demo.format_beyond (U "in.txt") (U "out.txt") true true
    {[ "in.txt"%string := File (Text (U "Hello world. مرحبا بالعالم")) ]}
  = (Done tt,
     {[ "in.txt"%string := File (Text (U "Hello world. مرحبا بالعالم"));
        "temp.txt"%string := File (Text (U "مرحبا بالعالم"));
        "out.txt"%string := File (Text (U "مرحبا بالعالم")) ]}).
Proof. vm_compute. reflexivity. Qed.

(** ** Facts about [strip], [splitlines] and [join] *)

Section StrFacts.

Import Str.

Lemma lstrip_keeps s : lstrip s = [] \/ exists h t, lstrip s = h :: t /\ is_space h = false.
Proof.
  induction s as [|c s IH]; [now left|]. simpl.
  destruct (is_space c) eqn:E; [exact IH|]. right. eauto.
Qed.

Lemma lstrip_fixed h t : is_space h = false -> lstrip (h :: t) = h :: t.
Proof. intros H. simpl. now rewrite H. Qed.

Lemma lstrip_In c s : In c (lstrip s) -> In c s.
Proof.
  induction s as [|x s IH]; [trivial|]. simpl.
  destruct (is_space x); [right; auto | trivial].
Qed.

Lemma lstrip_idem s : lstrip (lstrip s) = lstrip s.
Proof.
  destruct (lstrip_keeps s) as [->|(h & t & -> & H)]; [reflexivity|].
  now apply lstrip_fixed.
Qed.

(** Stripping on the left stops at the latest at a last character that
    is no space. *)
Lemma lstrip_snoc a h :
  is_space h = false -> exists u, lstrip (a ++ [h]) = u ++ [h].
Proof.
  intros H. induction a as [|c a [u IH]].
  - exists []. simpl. now rewrite H.
  - simpl. destruct (is_space c); [eauto|]. now exists (c :: a).
Qed.

Lemma rstrip_In c s : In c (rstrip s) -> In c s.
Proof.
  unfold rstrip. rewrite <- !in_rev. intros H. apply lstrip_In in H.
  now apply in_rev.
Qed.

Lemma strip_In c s : In c (strip s) -> In c s.
Proof. intros H. apply lstrip_In. now apply rstrip_In. Qed.

Lemma rstrip_idem s : rstrip (rstrip s) = rstrip s.
Proof. unfold rstrip. now rewrite rev_involutive, lstrip_idem. Qed.

Lemma lstrip_rstrip_fixed h t :
  is_space h = false -> lstrip (rstrip (h :: t)) = rstrip (h :: t).
Proof.
  intros H. unfold rstrip. simpl rev.
  destruct (lstrip_snoc (rev t) h H) as [u ->].
  rewrite rev_app_distr. simpl. now rewrite H.
Qed.

(** Trimming a trimmed line changes nothing. *)
Lemma strip_idem s : strip (strip s) = strip s.
Proof.
  unfold strip at 2 3.
  destruct (lstrip_keeps s) as [->|(h & t & -> & H)]; [reflexivity|].
  unfold strip. rewrite (lstrip_rstrip_fixed _ _ H). apply rstrip_idem.
Qed.

Lemma splitlines_from_plain l :
  Forall (fun c => is_linebreak c = false) l ->
  forall s cur, splitlines_from (l ++ s) cur = splitlines_from s (cur ++ l).
Proof.
  induction 1 as [|c l Hc _ IH]; intros s cur; simpl.
  - now rewrite app_nil_r.
  - rewrite Hc, IH, <- app_assoc. reflexivity.
Qed.

Lemma current_line (cur s : text) :
  Forall (fun c => is_linebreak c = false) cur ->
  Forall (fun c => is_linebreak c = false /\ (In c cur \/ In c s)) cur.
Proof.
  rewrite !List.Forall_forall. intros H x Hx. split; [auto | now left].
Qed.

(** A line of [splitlines] holds no line boundary, and only characters of
    the text. *)
Lemma splitlines_from_lines n :
  forall s cur, (length s <= n)%nat ->
  Forall (fun c => is_linebreak c = false) cur ->
  Forall (fun line =>
            Forall (fun c => is_linebreak c = false
                             /\ (In c cur \/ In c s)) line)
         (splitlines_from s cur).
Proof.
  induction n as [|n IH]; intros s cur Hn Hcur.
  - destruct s; [|simpl in Hn; lia]. simpl.
    destruct cur as [|k cur]; constructor; [|constructor].
    exact (current_line _ [] Hcur).
  - destruct s as [|c s].
    { simpl. destruct cur as [|k cur]; constructor; [|constructor].
      exact (current_line _ [] Hcur). }
    simpl in Hn. simpl splitlines_from. destruct (is_linebreak c) eqn:Ec.
    + constructor; [now apply current_line|].
      assert (Hweak : forall t, (forall x, In x t -> In x s) ->
                (length t <= n)%nat ->
                Forall (fun line =>
                   Forall (fun c0 => is_linebreak c0 = false
                                     /\ (In c0 cur \/ In c0 (c :: s))) line)
                  (splitlines_from t [])).
      { intros t Ht Hl.
        eapply Forall_impl; [apply (IH t []); [exact Hl|constructor]|].
        intros line Hline. eapply Forall_impl; [exact Hline|].
        intros x [Hx1 [[]|Hx2]]. split; [exact Hx1|]. right. right. auto. }
      destruct s as [|d s'']; [constructor|].
      destruct ((c =? CR) && (d =? LF)).
      * apply Hweak; [intros x Hx; now right | simpl in Hn; lia].
      * apply Hweak; [trivial | lia].
    + assert (Hcur' : Forall (fun c0 => is_linebreak c0 = false) (cur ++ [c])).
      { apply Forall_app. split; [exact Hcur | now constructor]. }
      eapply Forall_impl; [apply (IH s (cur ++ [c])); [lia | exact Hcur']|].
      intros line Hline. eapply Forall_impl; [exact Hline|].
      intros x [Hx1 Hx2]. split; [exact Hx1|].
      destruct Hx2 as [Hx2|Hx2]; [|right; now right].
      apply in_app_or in Hx2. destruct Hx2 as [Hx2|[<-|[]]];
        [now left | right; now left].
Qed.

Lemma splitlines_lines s :
  Forall (fun line =>
            Forall (fun c => is_linebreak c = false /\ In c s) line)
         (splitlines s).
Proof.
  eapply Forall_impl;
    [apply (splitlines_from_lines (length s) s []); [lia | constructor]|].
  intros line Hline. eapply Forall_impl; [exact Hline|].
  intros x [Hx1 [[]|Hx2]]. now split.
Qed.

Lemma join_In sep ls c :
  In c (join sep ls) -> In c sep \/ exists l, In l ls /\ In c l.
Proof.
  induction ls as [|x [|y ls] IH]; simpl.
  - intros [].
  - intros H. right. exists x. auto.
  - intros H. apply in_app_or in H. destruct H as [H|H].
    { right. exists x. auto. }
    apply in_app_or in H. destruct H as [H|H]; [now left|].
    destruct (IH H) as [H'|(l & Hl & Hc)]; [now left|].
    right. exists l. split; [now right | exact Hc].
Qed.

(** Lines that are not empty and hold no line boundary are the lines of
    their join. *)
Lemma splitlines_join ls :
  Forall (fun l => l <> [] /\ Forall (fun c => is_linebreak c = false) l) ls ->
  splitlines (join [LF] ls) = ls.
Proof.
  unfold splitlines. induction 1 as [|x ls [Hx Hpl] Hls IH]; [reflexivity|].
  destruct ls as [|y ls].
  - simpl. rewrite <- (app_nil_r x) at 1.
    rewrite (splitlines_from_plain _ Hpl). simpl. now destruct x.
  - change (join [LF] (x :: y :: ls)) with (x ++ LF :: join [LF] (y :: ls)).
    rewrite (splitlines_from_plain _ Hpl). simpl app.
    remember (join [LF] (y :: ls)) as j eqn:Hj.
    change (splitlines_from (LF :: j) x)
      with (x :: match j with
                 | d :: s'' =>
                   if (LF =? CR) && (d =? LF) then splitlines_from s'' []
                   else splitlines_from j []
                 | [] => []
                 end).
    f_equal. destruct j as [|d s'']; [discriminate IH | exact IH].
Qed.

Lemma lstrip_length s : (length (lstrip s) <= length s)%nat.
Proof.
  induction s as [|c s IH]; [simpl; lia|]. simpl.
  destruct (is_space c); simpl; lia.
Qed.

Lemma lstrip_same s : length (lstrip s) = length s -> lstrip s = s.
Proof.
  destruct s as [|c s]; [reflexivity|]. simpl.
  destruct (is_space c); [|reflexivity].
  pose proof (lstrip_length s). lia.
Qed.

Lemma rstrip_length s : (length (rstrip s) <= length s)%nat.
Proof.
  unfold rstrip. rewrite length_rev.
  pose proof (lstrip_length (rev s)) as H. now rewrite length_rev in H.
Qed.

Lemma rstrip_same s : length (rstrip s) = length s -> rstrip s = s.
Proof.
  unfold rstrip. rewrite length_rev. intros H.
  rewrite lstrip_same; [apply rev_involutive | now rewrite length_rev].
Qed.

(** A line that [strip] leaves alone is left alone on both sides. *)
Lemma strip_fixed s : strip s = s -> lstrip s = s /\ rstrip s = s.
Proof.
  unfold strip. intros H.
  pose proof (lstrip_length s) as H1.
  pose proof (rstrip_length (lstrip s)) as H2.
  assert (Hl : lstrip s = s).
  { apply lstrip_same. apply (f_equal (@length _)) in H. lia. }
  split; [exact Hl | now rewrite Hl in H].
Qed.

Lemma lstrip_head s :
  lstrip s = s -> s <> [] -> exists h m, s = h :: m /\ is_space h = false.
Proof.
  intros H Hne. destruct (lstrip_keeps s) as [E|(h & m & E & Hh)].
  - congruence.
  - exists h, m. split; [congruence | exact Hh].
Qed.

(** A line that [strip] leaves alone, and that is not empty, starts and
    ends with a character that is no white space. *)
Lemma strip_edges l :
  l <> [] -> strip l = l ->
  is_space (hd SPACE l) = false /\ is_space (List.last l SPACE) = false.
Proof.
  intros Hne Hs. destruct (strip_fixed _ Hs) as [Hl Hr]. split.
  - destruct (lstrip_head _ Hl Hne) as (h & m & -> & Hh). exact Hh.
  - unfold rstrip in Hr.
    assert (Hrev : lstrip (rev l) = rev l).
    { apply (f_equal (@rev _)) in Hr. now rewrite rev_involutive in Hr. }
    assert (Hne' : rev l <> []).
    { intros E. apply Hne. apply (f_equal (@rev _)) in E.
      now rewrite rev_involutive in E. }
    destruct (lstrip_head _ Hrev Hne') as (h & m & E & Hh).
    apply (f_equal (@rev _)) in E. rewrite rev_involutive in E.
    rewrite E. cbn [rev]. now rewrite last_last.
Qed.

Lemma unlines_join ls : unlines ls = join [LF] ls.
Proof.
  induction ls as [|l [|l' ls] IH]; try reflexivity.
  change (unlines (l :: l' :: ls)) with (l ++ LF :: unlines (l' :: ls)).
  now rewrite IH.
Qed.

End StrFacts.

(** ** Removal mode: what is left in the pre-processed text *)

Section RemovalFacts.

Import Re Str.

Lemma hit_strip s :
  hit strip_regex s
  = match s with
    | a :: t => if stray a then Some (a, [], t) else None
    | [] => None
    end.
Proof.
  unfold hit, strip_regex, stray. destruct s as [|a t]; [reflexivity|].
  cbn [match_here]. destruct (one_of (U "#|$") a); reflexivity.
Qed.

Lemma sub_strip t : Re.sub strip_regex [] t = Done (remove_stray t).
Proof.
  unfold Re.sub. simpl. f_equal.
  induction t as [|x t IH]; [reflexivity|].
  pose proof (hit_strip (x :: t)) as H. cbn [remove_stray List.filter] in *.
  destruct (stray x); cbn [negb].
  - rewrite (sub_with_hit _ _ _ _ _ _ _ H). exact IH.
  - rewrite (sub_with_miss _ _ _ _ H). f_equal. exact IH.
Qed.

Lemma remove_stray_clean t : Forall (fun c => stray c = false) (remove_stray t).
Proof.
  apply List.Forall_forall. intros c Hc. apply filter_In in Hc.
  destruct Hc as [_ Hc]. now apply negb_true_iff.
Qed.

Lemma remove_stray_app a b :
  remove_stray (a ++ b) = remove_stray a ++ remove_stray b.
Proof. apply List.filter_app. Qed.

Lemma ditch_eq doc :
  ditch doc = Done (tidy (remove_stray (sub_with non_ar_regex [Lit LF] doc))).
Proof.
  unfold ditch. unfold Re.sub at 1.
  change (parse_template [LF]) with (Done [Lit LF]). cbn [bind].
  rewrite sub_strip. reflexivity.
Qed.

(** The lines kept by [tidy]. *)
Lemma tidy_kept t l :
  In l (map strip (filter (fun line => strip line <> []) (splitlines t))) ->
  l <> [] /\ strip l = l
  /\ Forall (fun c => is_linebreak c = false /\ In c t) l.
Proof.
  intros H. apply in_map_iff in H. destruct H as (line & <- & H).
  apply list_elem_of_In, list_elem_of_filter in H. destruct H as [Hne H].
  split; [exact Hne|]. split; [apply strip_idem|].
  pose proof (splitlines_lines t) as Hl. rewrite List.Forall_forall in Hl.
  apply list_elem_of_In in H. specialize (Hl _ H).
  rewrite List.Forall_forall in Hl. apply List.Forall_forall.
  intros c Hc. apply Hl. now apply strip_In.
Qed.

Lemma tidy_lines t :
  splitlines (tidy t)
  = map strip (filter (fun line => strip line <> []) (splitlines t)).
Proof.
  unfold tidy. apply splitlines_join. apply List.Forall_forall.
  intros l Hl. destruct (tidy_kept _ _ Hl) as (Hne & _ & Hc).
  split; [exact Hne|]. eapply Forall_impl; [exact Hc|]. now intros c [? _].
Qed.

Lemma tidy_In t c : In c (tidy t) -> c = LF \/ In c t.
Proof.
  intros H. apply join_In in H. destruct H as [[<-|[]]|(l & Hl & Hc)];
    [now left|].
  right. destruct (tidy_kept _ _ Hl) as (_ & _ & Hf).
  rewrite List.Forall_forall in Hf. now apply Hf.
Qed.

(** C4. In removal mode the pre-processed text is a sequence of lines
    with one line feed between a line and the next.  It holds none of
    the characters [#], [|], [$].  None of its lines is blank and none
    has anything to strip: each line has a first and a last character,
    neither of them white space, and holds no line boundary of any
    kind, so that the lines are the lines of the text whatever is taken
    for a line end. *)
Theorem ditch_clean (doc : text) :
  exists lines,
    ditch doc = Done (unlines lines)
    /\ Forall (fun c => stray c = false) (unlines lines)
    /\ Forall clean_line lines.
Proof.
  exists (map strip
            (filter (fun line => strip line <> [])
               (splitlines (remove_stray (sub_with non_ar_regex [Lit LF] doc))))).
  rewrite unlines_join. split; [apply ditch_eq|]. split.
  - apply List.Forall_forall. intros c Hc.
    apply tidy_In in Hc. destruct Hc as [->|Hc]; [reflexivity|].
    pose proof (remove_stray_clean (sub_with non_ar_regex [Lit LF] doc)) as H.
    rewrite List.Forall_forall in H. now apply H.
  - apply List.Forall_forall. intros l Hl.
    destruct (tidy_kept _ _ Hl) as (Hne & Hs & Hc).
    destruct (strip_edges _ Hne Hs) as [Hh Hz].
    split; [exact Hh|]. split; [exact Hz|].
    eapply Forall_impl; [exact Hc|]. now intros c [? _].
Qed.

End RemovalFacts.

(** ** Scans as gaps and matches *)

Section WeaveFacts.

Import Re Str.

Lemma flat_weave (f : text * text -> text) l tl :
  flat_map (fun gm => gm.1 ++ f gm) l ++ tl = weave (map fst l) (map f l) tl.
Proof.
  induction l as [|gm l IH]; [reflexivity|].
  simpl. rewrite <- !app_assoc. now rewrite IH.
Qed.

(** The text scanned is its gaps with the matches after them. *)
Lemma finditer_text r s :
  s = weave (map fst (finditer r s).1) (map snd (finditer r s).1)
        (finditer r s).2.
Proof.
  rewrite <- (flat_weave snd). symmetry.
  apply (scan_text r (length s)). lia.
Qed.

(** A substitution keeps the gaps and puts the expanded template after
    each. *)
Lemma sub_with_weave r tpl s :
  sub_with r tpl s
  = weave (map fst (finditer r s).1)
      (map (fun gm => expand tpl gm.2) (finditer r s).1) (finditer r s).2.
Proof.
  unfold sub_with. destruct (finditer r s) as [l tl].
  apply (flat_weave (fun gm => expand tpl gm.2)).
Qed.

Lemma remove_stray_weave gaps :
  forall fills tl,
  remove_stray (weave gaps fills tl)
  = weave (map remove_stray gaps) (map remove_stray fills) (remove_stray tl).
Proof.
  induction gaps as [|g gaps IH]; intros [|f fills] tl; try reflexivity.
  simpl. rewrite !remove_stray_app. now rewrite IH.
Qed.

(** C10. Removal mode strips [#], [|] and [$] from the whole document:
    the document is its target-language stretches with the non-target
    spans between them, and the pre-processed text is made of every
    stretch with these characters removed (a newline taking the place
    of each span), tidied.  None of them is left, so a target-language
    stretch that holds one is not kept as it was. *)
Theorem ditch_strips_whole_document (doc : text) :
  exists gaps spans tl pre,
    spans = findall non_ar_regex doc
    /\ length gaps = length spans
    /\ doc = weave gaps spans tl
    /\ ditch doc = Done pre
    /\ pre = tidy (weave (map remove_stray gaps) (map (fun _ => [LF]) spans)
                     (remove_stray tl))
    /\ forall c, stray c = true -> ~ In c pre.
Proof.
  exists (map fst (finditer non_ar_regex doc).1),
         (map snd (finditer non_ar_regex doc).1),
         (finditer non_ar_regex doc).2.
  eexists. split; [reflexivity|]. split; [now rewrite !length_map|].
  split; [apply finditer_text|]. split; [apply ditch_eq|].
  split.
  - rewrite sub_with_weave, remove_stray_weave. f_equal. f_equal.
    rewrite !map_map. reflexivity.
  - intros c Hc Hin. apply tidy_In in Hin. destruct Hin as [->|Hin].
    + discriminate Hc.
    + pose proof (remove_stray_clean
                    (sub_with non_ar_regex [Lit LF] doc)) as H.
      rewrite List.Forall_forall in H. apply H in Hin. congruence.
Qed.

(** A hash inside Arabic text goes too. *)
Example ditch_arabic_hash : ditch (U "كتاب#قلم") = Done (U "كتابقلم").
Proof. vm_compute. reflexivity. Qed.

End WeaveFacts.

(** ** The non-target pattern *)

Section NonTargetFacts.

Import Re.

Lemma many_sound k p :
  forall s lo m rest,
  many k p s lo = Some (m, rest) ->
  exists a b m',
    s = a ++ b /\ Forall (fun c => p c = true) a /\ (lo <= length a)%nat
    /\ k b = Some (m', rest) /\ m = a ++ m'.
Proof.
  assert (Hstop : forall s lo m rest,
             match lo with O => k s | S _ => None end = Some (m, rest) ->
             exists a b m',
               s = a ++ b /\ Forall (fun c => p c = true) a
               /\ (lo <= length a)%nat /\ k b = Some (m', rest) /\ m = a ++ m').
  { intros s [|lo] m rest H; [|discriminate].
    exists [], s, m. repeat split; auto. }
  induction s as [|c s IH]; intros lo m rest H; simpl in H; [eauto|].
  destruct (p c) eqn:Ec; [|eauto].
  destruct (many k p s (Nat.pred lo)) as [[m0 rest0]|] eqn:E; [|eauto].
  inversion H; subst. destruct (IH _ _ _ E) as (a & b & m' & -> & Ha & Hlo & Hk & ->).
  exists (c :: a), b, m'. repeat split; auto. simpl. lia.
Qed.

Lemma many_complete k p a :
  forall b lo,
  Forall (fun c => p c = true) a -> (lo <= length a)%nat ->
  k b <> None -> many k p (a ++ b) lo <> None.
Proof.
  induction a as [|c a IH]; intros b lo Ha Hlo Hk.
  - simpl in Hlo. assert (lo = O) as -> by lia. simpl.
    destruct b as [|c b]; simpl; [exact Hk|].
    destruct (p c); [|exact Hk].
    destruct (many k p b 0%nat) as [[m rest]|]; [discriminate | exact Hk].
  - inversion Ha as [|? ? Hc Ha']; subst. simpl. rewrite Hc.
    assert (H : many k p (a ++ b) (Nat.pred lo) <> None).
    { apply IH; auto. simpl in Hlo. lia. }
    destruct (many k p (a ++ b) (Nat.pred lo)) as [[m rest]|];
      [discriminate | contradiction].
Qed.

(** What the non-target pattern matches has the shape of a span. *)
Lemma match_non_ar s m rest :
  match_here non_ar_regex s = Some (m, rest) -> span_shape m.
Proof.
  intros H. apply many_sound in H.
  destruct H as (a & b & m' & -> & Ha & Hlo & Hk & ->).
  simpl in Hk. destruct b as [|c [|d b]]; try discriminate.
  - destruct (not_newline c); discriminate.
  - destruct (not_newline c) eqn:Ec; [|discriminate].
    destruct (non_ar_last d) eqn:Ed; [|discriminate].
    inversion Hk; subst. exists a, c, d. auto.
Qed.

Lemma hit_non_ar s d m rest :
  hit non_ar_regex s = Some (d, m, rest) -> span_shape (d :: m).
Proof.
  unfold hit. intros H.
  destruct (match_here non_ar_regex s) as [[[|d' m'] rest']|] eqn:E;
    try discriminate.
  inversion H; subst. eapply match_non_ar, E.
Qed.

(** Where a text starts with the shape of a span, the pattern matches. *)
Lemma hit_non_ar_complete run c d post :
  (6 <= length run)%nat -> Forall (fun x => non_ar_body x = true) run ->
  not_newline c = true -> non_ar_last d = true ->
  hit non_ar_regex (run ++ c :: d :: post) <> None.
Proof.
  intros Hlen Hrun Hc Hd. unfold hit.
  assert (H : match_here non_ar_regex (run ++ c :: d :: post) <> None).
  { apply many_complete; auto. simpl. rewrite Hc, Hd. discriminate. }
  destruct (match_here non_ar_regex (run ++ c :: d :: post))
    as [[m rest]|] eqn:E; [|contradiction].
  destruct (match_non_ar _ _ _ E) as (a & x & y & -> & Ha & _).
  destruct a; simpl in *; [lia | discriminate].
Qed.

Lemma findall_non_ar_shape doc :
  Forall span_shape (findall non_ar_regex doc).
Proof.
  induction doc as [|c s d m rest H Hs IH|c s H IH]
    using (hit_ind non_ar_regex).
  - constructor.
  - rewrite (findall_hit _ _ _ _ _ _ H). constructor; [|exact IH].
    eapply hit_non_ar, H.
  - now rewrite (findall_miss _ _ _ H).
Qed.

Lemma hit_nil r : hit r [] = None.
Proof.
  unfold hit. destruct (match_here r []) as [[[|d m] rest]|] eqn:E;
    try reflexivity.
  apply match_here_app in E. discriminate.
Qed.

Lemma located_shift l a :
  forall b,
  located l (a ++ b) = map (fun bm => (a ++ bm.1, bm.2)) (located l b).
Proof.
  induction l as [|[g m] l IH]; intros b; [reflexivity|].
  cbn [located map fst snd]. f_equal.
  - f_equal. symmetry. apply app_assoc.
  - rewrite <- IH. f_equal. symmetry. apply app_assoc.
Qed.

Lemma located_push c x :
  located (push c x).1 [] = map (fun bm => (c :: bm.1, bm.2)) (located x.1 []).
Proof.
  destruct x as [[|[g m] l] tl]; [reflexivity|].
  cbn [push fst located map snd app]. f_equal.
  apply (located_shift l [c] (g ++ m)).
Qed.

(** What is located is there. *)
Lemma located_sound l tl :
  forall b0 before m,
  In (before, m) (located l b0) ->
  In m (map snd l)
  /\ exists after,
       b0 ++ flat_map (fun gm => gm.1 ++ gm.2) l ++ tl = before ++ m ++ after.
Proof.
  induction l as [|[g m0] l IH]; intros b0 before m H; [destruct H|].
  cbn [located] in H. destruct H as [H|H].
  - inversion H; subst. split; [now left|].
    exists (flat_map (fun gm => gm.1 ++ gm.2) l ++ tl).
    cbn [flat_map fst snd]. now rewrite <- !app_assoc.
  - destruct (IH _ _ _ H) as [Hin [after Ha]]. split; [now right|].
    exists after. rewrite <- Ha. cbn [flat_map fst snd].
    now rewrite <- !app_assoc.
Qed.

(** Wherever the pattern matches, the scan has located a match that
    covers the place: the scan tries every place that no earlier match
    covers. *)
Lemma scan_covers r (s : text) :
  forall pre rest : text,
  s = pre ++ rest -> hit r rest <> None ->
  exists before m,
    In (before, m) (located (scan r s 0%nat).1 [])
    /\ (length before <= length pre < length before + length m)%nat.
Proof.
  induction s as [|c s d m rest0 H Hs IH|c s H IH] using (hit_ind r);
    intros pre rest Hdoc Hhit.
  - destruct pre, rest; try discriminate. now rewrite hit_nil in Hhit.
  - destruct (scan_hit _ _ _ _ _ _ H) as [_ ->].
    destruct (scan r rest0 0%nat) as [l tl] eqn:El. cbn [fst located app].
    destruct (le_lt_dec (length (d :: m)) (length pre)) as [Hle|Hlt].
    + assert (Hpre : exists pre', pre = (d :: m) ++ pre' /\ rest0 = pre' ++ rest).
      { exists (drop (length (d :: m)) pre).
        assert (E : (d :: m) ++ rest0 = pre ++ rest) by (now rewrite <- Hdoc, Hs).
        assert (Ht : d :: m = take (length (d :: m)) pre).
        { apply (f_equal (take (length (d :: m)))) in E.
          rewrite take_app_length in E.
          rewrite take_app_le in E by lia. exact E. }
        split.
        - rewrite Ht at 1. now rewrite take_drop.
        - apply (f_equal (drop (length (d :: m)))) in E.
          rewrite drop_app_length in E.
          rewrite drop_app_le in E by lia. exact E. }
      destruct Hpre as (pre' & -> & Hrest).
      destruct (IH pre' rest Hrest Hhit) as (before & m' & Hin & Hlen).
      exists ((d :: m) ++ before), m'. split.
      * right. cbn [fst] in Hin.
        replace (located l (d :: m)) with (located l ((d :: m) ++ []))
          by now rewrite app_nil_r.
        rewrite located_shift. apply in_map_iff.
        exists (before, m'). split; [reflexivity | exact Hin].
      * rewrite !length_app. lia.
    + exists [], (d :: m). split; [now left|]. simpl in *. lia.
  - rewrite (scan_miss _ _ _ H). rewrite located_push.
    destruct pre as [|p0 pre].
    + simpl in Hdoc. subst rest. contradiction.
    + inversion Hdoc; subst.
      destruct (IH pre rest eq_refl Hhit) as (before & m & Hin & Hlen).
      exists (p0 :: before), m. split.
      * apply in_map_iff. exists (before, m). split; [reflexivity | exact Hin].
      * simpl. lia.
Qed.

(** C7, as the script has it.  A span located by the non-target pattern
    is a run of at least six characters of the class (Latin letters,
    decimal digits, space, [.], [;], [#], line feed, carriage return),
    then one character of any kind but a line feed or carriage return,
    then one character that is a letter, a digit, [.], [;] or [#]: at
    least eight characters.  The spans with their places are what
    [findall] returns, each standing in the document where it is said
    to stand.  Wherever the document holds such a sequence, a located
    span covers the place where the sequence starts. *)
Theorem non_target_span_shape (doc : text) :
  (forall span, In span (findall non_ar_regex doc) ->
     span_shape span /\ (8 <= length span)%nat)
  /\ (forall before span, In (before, span) (spans_at doc) ->
        In span (findall non_ar_regex doc)
        /\ exists after, doc = before ++ span ++ after)
  /\ (forall pre run c d post,
        doc = pre ++ run ++ c :: d :: post ->
        (6 <= length run)%nat -> Forall (fun x => non_ar_body x = true) run ->
        not_newline c = true -> non_ar_last d = true ->
        exists before span,
          In (before, span) (spans_at doc)
          /\ (length before <= length pre < length before + length span)%nat).
Proof.
  split; [|split].
  - intros span Hin. pose proof (findall_non_ar_shape doc) as H.
    rewrite List.Forall_forall in H. specialize (H _ Hin). split; [exact H|].
    destruct H as (run & c & d & -> & Hlen & _).
    rewrite length_app. simpl. lia.
  - intros before span Hin. unfold spans_at in Hin.
    destruct (located_sound _ (finditer non_ar_regex doc).2 _ _ _ Hin)
      as [Hs [after Ha]].
    split; [exact Hs|]. exists after. rewrite <- Ha. cbn [app].
    symmetry. apply (scan_text non_ar_regex (length doc)). lia.
  - intros pre run c d post Hdoc Hlen Hrun Hc Hd.
    apply (scan_covers non_ar_regex doc pre (run ++ c :: d :: post) Hdoc).
    now apply hit_non_ar_complete.
Qed.

(** A match consumes at least [min_len] characters; the patterns of the
    script all consume one or more, so none of them matches the empty
    text. *)
Lemma match_here_min_len r :
  forall s m rest,
  match_here r s = Some (m, rest) -> (min_len r <= length m)%nat.
Proof.
  induction r as [|[p|p lo] r IH]; intros s m rest H; simpl in H.
  - inversion H. simpl. lia.
  - destruct s as [|c s]; [discriminate|]. destruct (p c); [|discriminate].
    destruct (match_here r s) as [[m' rest']|] eqn:E; [|discriminate].
    inversion H; subst. simpl. apply IH in E. lia.
  - apply many_sound in H.
    destruct H as (a & b & m' & -> & _ & Hlo & Hk & ->).
    apply IH in Hk. rewrite length_app. simpl. lia.
Qed.

Example patterns_consume :
  Forall (fun r => (0 < min_len r)%nat)
    [ta_marbuta_regex; plus_regex; non_ar_regex; strip_regex; pattern;
     hashes_regex].
Proof.
  do 6 (apply List.Forall_cons; [vm_compute; lia|]). apply List.Forall_nil.
Qed.

End NonTargetFacts.

(** A sequence that starts inside an earlier span: the span covers its
    start. *)
Lemma non_target_span_shape_witness :
  let doc := U "abcdefمzbcdefمz" in
  (doc = U "abcdefم" ++ U "zbcdef" ++ 1605 :: 122 :: []
   /\ (6 <= length (U "zbcdef"))%nat
   /\ Forall (fun x => non_ar_body x = true) (U "zbcdef")
   /\ not_newline 1605 = true /\ non_ar_last 122 = true)
  /\ exists before span,
       In (before, span) (spans_at doc)
       /\ (length before <= length (U "abcdefم")
           < length before + length span)%nat.
Proof.
  intros doc.
  assert (H1 : doc = U "abcdefم" ++ U "zbcdef" ++ 1605 :: 122 :: [])
    by reflexivity.
  assert (H2 : (6 <= length (U "zbcdef"))%nat) by (vm_compute; lia).
  assert (H3 : Forall (fun x => non_ar_body x = true) (U "zbcdef")).
  { apply List.Forall_forall. intros c Hc. vm_compute in Hc.
    repeat (destruct Hc as [<-|Hc]; [reflexivity|]). destruct Hc. }
  assert (H4 : not_newline 1605 = true) by reflexivity.
  assert (H5 : non_ar_last 122 = true) by reflexivity.
  split; [tauto|].
  exact (proj2 (proj2 (non_target_span_shape doc))
           (U "abcdefم") (U "zbcdef") 1605 122 [] H1 H2 H3 H4 H5).
Defined.

(** C7 as the specification words it does not hold: a located span can
    hold a character outside the classes (here an Arabic letter); a run
    of six characters of the classes with nothing after it is not
    located; and a sequence of the right shape is not always a span
    itself, since spans do not overlap (here the second one starts with
    the last character of the first). *)
Lemma non_target_span_not_a_run :
  ~ (forall doc span,
       In span (Re.findall non_ar_regex doc) ->
       Forall (fun c => non_ar_body c = true) span)
  /\ ~ (forall run,
          (6 <= length run)%nat -> Forall (fun c => non_ar_body c = true) run ->
          Re.findall non_ar_regex run <> [])
  /\ ~ (forall doc pre run c d post,
          doc = pre ++ run ++ c :: d :: post ->
          (6 <= length run)%nat ->
          Forall (fun x => non_ar_body x = true) run ->
          not_newline c = true -> non_ar_last d = true ->
          In (run ++ [c; d]) (Re.findall non_ar_regex doc)).
Proof.
  split; [|split].
  - intros H. specialize (H (U "abcdefمz") (U "abcdefمz")).
    assert (Hin : In (U "abcdefمz") (Re.findall non_ar_regex (U "abcdefمz")))
      by (vm_compute; left; reflexivity).
    specialize (H Hin). rewrite List.Forall_forall in H.
    specialize (H 1605). assert (Hm : In 1605 (U "abcdefمz"))
      by (vm_compute; tauto).
    specialize (H Hm). vm_compute in H. discriminate.
  - intros H. apply (H (U "abcdef")).
    + vm_compute. lia.
    + apply List.Forall_forall. intros c Hc. vm_compute in Hc.
      repeat (destruct Hc as [<-|Hc]; [reflexivity|]). destruct Hc.
    + vm_compute. reflexivity.
  - intros H.
    specialize (H (U "abcdefمzbcdefمz") (U "abcdefم") (U "zbcdef") 1605 122 []
                  eq_refl).
    assert (Hin : In (U "zbcdef" ++ [1605; 122])
                    (Re.findall non_ar_regex (U "abcdefمzbcdefمz"))).
    { apply H; try reflexivity.
      apply List.Forall_forall. intros c Hc. vm_compute in Hc.
      repeat (destruct Hc as [<-|Hc]; [reflexivity|]). destruct Hc. }
    vm_compute in Hin. destruct Hin as [Hin|[]]. discriminate Hin.
Qed.

(** ** [str.format] on the template of [put_back] *)

Section FormatFacts.

Import Str.

Variable format_beyond : text -> list text -> numbering -> outcome text.
Variable args : list text.

Local Abbreviation fmt := (Str.fmt format_beyond args).

Lemma is_brace_cases c :
  is_brace c = true -> c = LBRACE \/ c = RBRACE.
Proof.
  unfold is_brace. intros H. apply orb_true_iff in H.
  destruct H as [H|H]; apply N.eqb_eq in H; auto.
Qed.

Lemma not_brace c :
  is_brace c = false -> (c =? LBRACE) = false /\ (c =? RBRACE) = false.
Proof. unfold is_brace. intros H. now apply orb_false_iff in H. Qed.

Lemma fmt_char c t num :
  is_brace c = false -> fmt (c :: t) None num = consc c (fmt t None num).
Proof.
  intros H. destruct (not_brace _ H) as [H1 H2].
  cbn [Str.fmt]. now rewrite H1, H2.
Qed.

Lemma fmt_slot t num i :
  auto_at i num ->
  fmt (LBRACE :: RBRACE :: t) None num
  = let! a := get_arg args i in prepend a (fmt t None (Auto (S i))).
Proof.
  intros [->|[-> ->]]; reflexivity.
Qed.

Lemma get_arg_drop i a :
  get_arg args i = Done a -> drop i args = a :: drop (S i) args.
Proof.
  unfold get_arg. destruct (args !! i) eqn:E; [|discriminate].
  intros H. inversion H; subst. now apply drop_S.
Qed.

Lemma get_arg_none i e :
  get_arg args i = Raised e -> drop i args = [] /\ e = BadIndex.
Proof.
  unfold get_arg. destruct (args !! i) eqn:E; [discriminate|].
  intros H. inversion H. split; [|reflexivity].
  apply drop_ge. now apply lookup_ge_None.
Qed.

(** Without braces outside the slots, formatting fills the slots in
    order, and fails on the first slot left without a span. *)
Lemma fmt_fill ts :
  forall num i,
  auto_at i num -> has_brace ts = false ->
  fmt (chars ts) None num
  = match fill ts (drop i args) with
    | Some r => Done r
    | None => Raised BadIndex
    end.
Proof.
  induction ts as [|[c|] ts IH]; intros num i Hnum Hb.
  - reflexivity.
  - simpl in Hb. apply orb_false_iff in Hb. destruct Hb as [Hc Hb].
    change (chars (L c :: ts)) with (c :: chars ts).
    rewrite (fmt_char _ _ _ Hc), (IH _ _ Hnum Hb). simpl.
    destruct (fill ts (drop i args)); reflexivity.
  - simpl in Hb. change (chars (Slot :: ts)) with (LBRACE :: RBRACE :: chars ts).
    rewrite (fmt_slot _ _ _ Hnum).
    destruct (get_arg args i) as [a|e] eqn:E.
    + rewrite (get_arg_drop _ _ E). cbn [bind fill].
      rewrite (IH (Auto (S i)) (S i)); [|now left|exact Hb].
      destruct (fill ts (drop (S i) args)); reflexivity.
    + destruct (get_arg_none _ _ E) as [-> ->]. reflexivity.
Qed.

Lemma prepend_done a (o : outcome text) r :
  prepend a o = Done r -> exists r', o = Done r' /\ r = a ++ r'.
Proof. destruct o; [|discriminate]. intros H. inversion H. eauto. Qed.

Lemma consc_done c (o : outcome text) r :
  consc c o = Done r -> exists r', o = Done r' /\ r = c :: r'.
Proof. destruct o; [|discriminate]. intros H. inversion H. eauto. Qed.

Lemma get_arg_In i a : get_arg args i = Done a -> In a args.
Proof.
  unfold get_arg. destruct (args !! i) eqn:E; [|discriminate].
  intros H. inversion H; subst. apply list_elem_of_In.
  eapply list_elem_of_lookup_2, E.
Qed.

Lemma accessor_not_decimal c :
  one_of [46; 91; 33; 58] c = true -> is_decimal c = false.
Proof.
  unfold one_of. cbn [existsb]. rewrite !orb_true_iff.
  intros [H|[H|[H|[H|H]]]]; try discriminate;
    apply N.eqb_eq in H; subst; reflexivity.
Qed.

(** A replacement field without accessor, conversion or format
    specification either makes [format] fail or is replaced by one of
    the arguments. *)
Lemma field_emits t :
  forall name num r,
  (all_decimal name = true -> opens_accessor t = false) ->
  fmt t (Some name) num = Done r ->
  exists a r', In a args /\ r = a ++ r'.
Proof.
  induction t as [|c t IH]; intros name num r Hinv H; cbn [Str.fmt] in H;
    [discriminate|].
  destruct (c =? RBRACE) eqn:E1.
  - assert (Hget : forall i o, (let! a := get_arg args i in prepend a o) = Done r ->
               exists a r', In a args /\ r = a ++ r').
    { intros i o Ho. destruct (get_arg args i) as [a|] eqn:Ea; [|discriminate].
      cbn [bind] in Ho. apply prepend_done in Ho. destruct Ho as (r' & _ & ->).
      exists a, r'. split; [eapply get_arg_In, Ea | reflexivity]. }
    destruct name as [|k name].
    + destruct num; [eauto | eauto | discriminate].
    + destruct (all_decimal (k :: name)); [|discriminate].
      destruct num; try discriminate;
        (destruct (ssize_max <? int_of (k :: name)); [discriminate | eauto]).
  - destruct (c =? LBRACE); [discriminate|].
    destruct (one_of [46; 91; 33; 58] c) eqn:E3.
    + destruct (all_decimal name) eqn:Ed; [|discriminate].
      specialize (Hinv eq_refl). cbn [opens_accessor] in Hinv.
      rewrite (accessor_not_decimal _ E3) in Hinv.
      change (one_of (U ".[!:") c) with (one_of [46; 91; 33; 58] c) in Hinv.
      congruence.
    + refine (IH _ _ _ _ H). intros Hd.
      unfold all_decimal in Hd. rewrite forallb_app in Hd.
      apply andb_true_iff in Hd. destruct Hd as [Hd Hc].
      cbn [forallb] in Hc. rewrite andb_true_r in Hc.
      specialize (Hinv Hd). cbn [opens_accessor] in Hinv.
      now rewrite Hc in Hinv.
Qed.

Lemma fmt_open d t num :
  fmt (LBRACE :: d :: t) None num
  = if d =? LBRACE then consc LBRACE (fmt t None num)
    else fmt (d :: t) (Some []) num.
Proof. reflexivity. Qed.

Lemma fmt_close d t num :
  fmt (RBRACE :: d :: t) None num
  = if d =? RBRACE then consc RBRACE (fmt t None num) else Raised BadFormat.
Proof. reflexivity. Qed.

Lemma plain_tail c t : plain_fields (c :: t) = true -> plain_fields t = true.
Proof. cbn [plain_fields]. intros H. now apply andb_true_iff in H. Qed.

Lemma replicate_shift j (b : char) x :
  replicate j b ++ b :: x = b :: replicate j b ++ x.
Proof. induction j as [|j IH]; [reflexivity|]. simpl. now rewrite IH. Qed.

Lemma drop_In i a rest : drop i args = a :: rest -> In a args.
Proof.
  intros H. rewrite <- (take_drop i args), H. apply in_or_app. right. now left.
Qed.

Hypothesis args_plain : Forall starts_plain args.

Lemma arg_head a : In a args -> exists h t, a = h :: t /\ is_brace h = false.
Proof.
  intros H. rewrite List.Forall_forall in args_plain. now apply args_plain.
Qed.

(** A brace outside the slots makes the formatted text differ from the
    literal restoration, also when the latter is given a head start of
    [j] braces. *)
Lemma fmt_differs n :
  forall ts, (length ts <= n)%nat ->
  forall num i b j r r0,
  auto_at i num ->
  plain_fields (chars ts) = true ->
  (0 < j)%nat \/ has_brace ts = true ->
  is_brace b = true ->
  fmt (chars ts) None num = Done r ->
  fill ts (drop i args) = Some r0 ->
  r <> replicate j b ++ r0.
Proof.
  induction n as [|n IH]; intros ts Hlen num i b j r r0 Hnum Hpl Hj Hb Hr Hf.
  { destruct ts; [|simpl in Hlen; lia]. simpl in Hr, Hf.
    inversion Hr; inversion Hf; subst.
    destruct j; [destruct Hj; [lia | discriminate] | discriminate]. }
  destruct ts as [|[c|] ts].
  - simpl in Hr, Hf. inversion Hr; inversion Hf; subst.
    destruct j; [destruct Hj; [lia | discriminate] | discriminate].
  - change (chars (L c :: ts)) with (c :: chars ts) in Hr, Hpl.
    simpl in Hlen.
    destruct (is_brace c) eqn:Ec.
    + destruct (is_brace_cases _ Ec) as [-> | ->].
      * (* an opening brace *)
        destruct ts as [|[d|] ts2].
        { discriminate Hr. }
        { change (chars (L d :: ts2)) with (d :: chars ts2) in Hr, Hpl.
          rewrite fmt_open in Hr.
          destruct (d =? LBRACE) eqn:Ed.
          - apply N.eqb_eq in Ed. subst d.
            apply consc_done in Hr. destruct Hr as (r2 & Hr2 & ->).
            cbn [fill] in Hf.
            destruct (fill ts2 (drop i args)) as [r02|] eqn:F; [|discriminate].
            inversion Hf; subst r0. simpl in Hlen.
            assert (Hpl2 : plain_fields (chars ts2) = true)
              by (apply plain_tail in Hpl; now apply plain_tail in Hpl).
            destruct j as [|j].
            + intros Heq. inversion Heq as [Heq'].
              refine (IH ts2 _ num i LBRACE 1%nat r2 r02 Hnum Hpl2 _ eq_refl Hr2 F _);
                [lia | left; lia | exact Heq'].
            + destruct (is_brace_cases _ Hb) as [-> | ->].
              * rewrite replicate_shift. intros Heq. inversion Heq as [Heq'].
                rewrite (replicate_shift j LBRACE) in Heq'.
                refine (IH ts2 _ num i LBRACE (S (S j)) r2 r02 Hnum Hpl2 _ eq_refl Hr2 F _);
                  [lia | left; lia | exact Heq'].
              * discriminate.
          - assert (Hinv : all_decimal [] = true ->
                           opens_accessor (d :: chars ts2) = false).
            { intros _. cbn [plain_fields] in Hpl.
              change (LBRACE =? LBRACE) with true in Hpl. cbn iota in Hpl.
              apply andb_true_iff in Hpl. destruct Hpl as [Hpl _].
              now apply negb_true_iff in Hpl. }
            destruct (field_emits _ _ _ _ Hinv Hr) as (a & r' & Ha & ->).
            destruct (arg_head _ Ha) as (h & t & -> & Hh).
            cbn [fill] in Hf.
            destruct (fill ts2 (drop i args)) as [r02|]; [|discriminate].
            inversion Hf; subst r0.
            destruct j as [|j]; simpl; intros Heq; inversion Heq; subst h;
              [discriminate Hh | congruence]. }
        { (* the brace and the slot after it read as an escaped brace *)
          change (chars (Slot :: ts2)) with (LBRACE :: RBRACE :: chars ts2) in Hr.
          change (fmt (LBRACE :: LBRACE :: RBRACE :: chars ts2) None num)
            with (consc LBRACE (fmt (RBRACE :: chars ts2) None num)) in Hr.
          apply consc_done in Hr. destruct Hr as (r2 & Hr2 & ->).
          destruct (chars ts2) as [|e t3]; [discriminate|].
          rewrite fmt_close in Hr2.
          destruct (e =? RBRACE); [|discriminate].
          apply consc_done in Hr2. destruct Hr2 as (r3 & _ & ->).
          cbn [fill] in Hf.
          destruct (drop i args) as [|a sp] eqn:Ed; [discriminate|].
          destruct (fill ts2 sp) as [r02|]; [|discriminate].
          inversion Hf; subst r0.
          destruct (arg_head a (drop_In _ _ _ Ed)) as (h & t & -> & Hh).
          destruct j as [|[|j]]; simpl; intros Heq; inversion Heq; subst;
            discriminate. }
      * (* a closing brace *)
        destruct ts as [|[d|] ts2].
        { discriminate Hr. }
        { change (chars (L d :: ts2)) with (d :: chars ts2) in Hr, Hpl.
          rewrite fmt_close in Hr.
          destruct (d =? RBRACE) eqn:Ed; [|discriminate].
          apply N.eqb_eq in Ed. subst d.
          apply consc_done in Hr. destruct Hr as (r2 & Hr2 & ->).
          cbn [fill] in Hf.
          destruct (fill ts2 (drop i args)) as [r02|] eqn:F; [|discriminate].
          inversion Hf; subst r0. simpl in Hlen.
          assert (Hpl2 : plain_fields (chars ts2) = true)
            by (apply plain_tail in Hpl; now apply plain_tail in Hpl).
          destruct j as [|j].
          - intros Heq. inversion Heq as [Heq'].
            refine (IH ts2 _ num i RBRACE 1%nat r2 r02 Hnum Hpl2 _ eq_refl Hr2 F _);
              [lia | left; lia | exact Heq'].
          - destruct (is_brace_cases _ Hb) as [-> | ->].
            + discriminate.
            + rewrite replicate_shift. intros Heq. inversion Heq as [Heq'].
              rewrite (replicate_shift j RBRACE) in Heq'.
              refine (IH ts2 _ num i RBRACE (S (S j)) r2 r02 Hnum Hpl2 _ eq_refl Hr2 F _);
                [lia | left; lia | exact Heq']. }
        { discriminate Hr. }
    + (* a character that is no brace *)
      rewrite (fmt_char _ _ _ Ec) in Hr.
      apply consc_done in Hr. destruct Hr as (r' & Hr' & ->).
      cbn [fill] in Hf.
      destruct (fill ts (drop i args)) as [r0'|] eqn:F; [|discriminate].
      inversion Hf; subst r0.
      destruct j as [|j].
      * intros Heq. inversion Heq as [Heq'].
        refine (IH ts _ num i b 0%nat r' r0' Hnum (plain_tail _ _ Hpl) _ Hb Hr' F Heq');
          [lia|].
        destruct Hj as [Hj|Hj]; [lia|]. right. simpl in Hj.
        now rewrite Ec in Hj.
      * simpl. intros Heq. inversion Heq; subst. congruence.
  - (* a slot *)
    change (chars (Slot :: ts)) with (LBRACE :: RBRACE :: chars ts) in Hr, Hpl.
    rewrite (fmt_slot _ _ _ Hnum) in Hr. simpl in Hlen.
    destruct (get_arg args i) as [a|] eqn:Ea; [|discriminate].
    cbn [bind] in Hr. apply prepend_done in Hr. destruct Hr as (r' & Hr' & ->).
    rewrite (get_arg_drop _ _ Ea) in Hf. cbn [fill] in Hf.
    destruct (fill ts (drop (S i) args)) as [r0'|] eqn:F; [|discriminate].
    inversion Hf; subst r0.
    destruct j as [|j].
    + intros Heq. simpl in Heq. apply app_inv_head in Heq.
      refine (IH ts _ (Auto (S i)) (S i) b 0%nat r' r0' _ _ _ Hb Hr' F Heq);
        [lia | now left | now do 2 apply plain_tail in Hpl |].
      destruct Hj as [Hj|Hj]; [lia | now right].
    + destruct (arg_head _ (get_arg_In _ _ Ea)) as (h & t & -> & Hh).
      simpl. intros Heq. inversion Heq; subst. congruence.
Qed.

End FormatFacts.

(** ** The tagging flow: preservation mode *)

Section PutBackFacts.

Import Re Str.

Lemma match_here_accepts r :
  forall s m rest,
  match_here r s = Some (m, rest) -> Forall (fun c => accepts r c = true) m.
Proof.
  induction r as [|[p|p lo] r IH]; intros s m rest H; simpl in H.
  - inversion H. constructor.
  - destruct s as [|c s]; [discriminate|].
    destruct (p c) eqn:Ec; [|discriminate].
    destruct (match_here r s) as [[m' rest']|] eqn:E; [|discriminate].
    inversion H; subst. constructor.
    + simpl. now rewrite Ec.
    + eapply Forall_impl; [eapply IH, E|].
      intros x Hx. simpl. rewrite Hx. apply orb_true_r.
  - apply many_sound in H.
    destruct H as (a & b & m' & -> & Ha & _ & Hk & ->).
    apply Forall_app. split.
    + eapply Forall_impl; [exact Ha|]. intros x Hx. simpl. now rewrite Hx.
    + eapply Forall_impl; [eapply IH, Hk|].
      intros x Hx. simpl. rewrite Hx. apply orb_true_r.
Qed.

Lemma scan_accepts r s :
  Forall (fun gm => Forall (fun c => accepts r c = true) gm.2)
    (scan r s 0%nat).1.
Proof.
  induction s as [|c s d m rest H Hs IH|c s H IH] using (hit_ind r).
  - constructor.
  - destruct (scan_hit _ _ _ _ _ _ H) as [_ ->].
    destruct (scan r rest 0%nat) as [l tl]. constructor; [|exact IH].
    unfold hit in H.
    destruct (match_here r (c :: s)) as [[[|d' m'] rest']|] eqn:E;
      try discriminate.
    inversion H; subst. eapply match_here_accepts, E.
  - rewrite (scan_miss _ _ _ H).
    destruct (scan r s 0%nat) as [[|[g m] l] tl]; [constructor|].
    inversion IH; subst. now constructor.
Qed.

Lemma pattern_no_brace c : accepts pattern c = true -> is_brace c = false.
Proof.
  intros H. destruct (is_brace c) eqn:E; [|reflexivity].
  destruct (is_brace_cases _ E) as [-> | ->]; vm_compute in H; discriminate.
Qed.

Lemma chars_app a b : chars (a ++ b) = chars a ++ chars b.
Proof. apply flat_map_app. Qed.

Lemma chars_L g : chars (map L g) = g.
Proof. induction g as [|c g IH]; [reflexivity|]. simpl. now f_equal. Qed.

Lemma chars_tokens l tl :
  chars (tokens_of l tl)
  = weave (map fst l) (map (fun _ => [LBRACE; RBRACE]) l) tl.
Proof.
  unfold tokens_of. rewrite chars_app, chars_L.
  induction l as [|[g m] l IH]; [reflexivity|].
  simpl. rewrite !chars_app, chars_L, <- !app_assoc. simpl app.
  now rewrite IH.
Qed.

Lemma fill_L g : forall ts sp, fill (map L g ++ ts) sp = app g <$> fill ts sp.
Proof.
  induction g as [|c g IH]; intros ts sp; simpl.
  - now destruct (fill ts sp).
  - rewrite IH. now destruct (fill ts sp).
Qed.

Lemma fill_tokens l tl :
  forall sp,
  fill (tokens_of l tl) sp
  = if decide (length l <= length sp)%nat
    then Some (weave (map fst l) sp tl) else None.
Proof.
  unfold tokens_of. induction l as [|[g m] l IH]; intros sp.
  - simpl. rewrite <- (app_nil_r (map L tl)), fill_L. simpl.
    rewrite app_nil_r. destruct sp; reflexivity.
  - simpl flat_map. rewrite <- !app_assoc, fill_L. simpl app. cbn [fill].
    destruct sp as [|a sp].
    + simpl. reflexivity.
    + rewrite IH. simpl length.
      destruct (decide (length l <= length sp)%nat);
        destruct (decide (S (length l) <= S (length sp))%nat);
        try lia; reflexivity.
Qed.

Lemma has_brace_app a b : has_brace (a ++ b) = has_brace a || has_brace b.
Proof. apply existsb_app. Qed.

Lemma has_brace_L g : has_brace (map L g) = negb (brace_free g).
Proof.
  induction g as [|c g IH]; [reflexivity|].
  simpl. rewrite IH. now destruct (is_brace c).
Qed.

Lemma brace_free_app a b : brace_free (a ++ b) = brace_free a && brace_free b.
Proof. apply forallb_app. Qed.

(** The braces of the tagged text are the braces outside the slots of
    the template. *)
Lemma has_brace_tokens s :
  has_brace (tokens_of (finditer pattern s).1 (finditer pattern s).2)
  = negb (brace_free s).
Proof.
  rewrite (finditer_text pattern s) at 3.
  pose proof (scan_accepts pattern s) as Hm. unfold finditer.
  destruct (scan pattern s 0%nat) as [l tl]. cbn [fst snd] in *.
  unfold tokens_of. rewrite has_brace_app, has_brace_L.
  induction l as [|[g m] l IH].
  - reflexivity.
  - inversion Hm as [|? ? Hm1 Hm2]; subst. cbn [fst snd] in Hm1.
    simpl. rewrite !has_brace_app, has_brace_L, !brace_free_app.
    assert (Hbm : brace_free m = true).
    { apply forallb_forall. intros c Hc. rewrite List.Forall_forall in Hm1.
      now rewrite (pattern_no_brace _ (Hm1 _ Hc)). }
    rewrite Hbm. simpl has_brace. rewrite orb_false_r.
    rewrite <- orb_assoc, (IH Hm2).
    destruct (brace_free g); reflexivity.
Qed.

Lemma sub_pattern s :
  Re.sub pattern (U "{}") s
  = Done (chars (tokens_of (finditer pattern s).1 (finditer pattern s).2)).
Proof.
  unfold Re.sub. change (parse_template (U "{}")) with (Done [Lit LBRACE; Lit RBRACE]).
  cbn [bind]. rewrite sub_with_weave, chars_tokens. reflexivity.
Qed.

Lemma sub_hashes t :
  Re.sub hashes_regex (U "S/S #/PUNC #/PUNC #/PUNC") t = Done (cleanup t).
Proof. reflexivity. Qed.

Lemma restore_fill non_ar s :
  restore non_ar s
  = fill (tokens_of (finditer pattern s).1 (finditer pattern s).2) non_ar.
Proof.
  unfold restore. rewrite fill_tokens.
  destruct (finditer pattern s) as [l tl]. reflexivity.
Qed.

Lemma slots_length s : slots s = length (finditer pattern s).1.
Proof. unfold slots, findall. apply length_map. Qed.

Lemma restore_some non_ar s :
  (slots s <= length non_ar)%nat ->
  restore non_ar s
  = Some (weave (map fst (finditer pattern s).1) non_ar (finditer pattern s).2).
Proof.
  intros H. rewrite slots_length in H. unfold restore.
  destruct (finditer pattern s) as [l tl]. cbn [fst snd] in *.
  destruct (decide (length l <= length non_ar)%nat); [reflexivity | lia].
Qed.

Lemma restore_none non_ar s :
  (length non_ar < slots s)%nat -> restore non_ar s = None.
Proof.
  intros H. rewrite slots_length in H. unfold restore.
  destruct (finditer pattern s) as [l tl]. cbn [fst snd] in *.
  destruct (decide (length l <= length non_ar)%nat); [lia | reflexivity].
Qed.

Variable format_beyond : text -> list text -> numbering -> outcome text.

(** On a tagged text without braces, [put_back] is the restoration of
    the specification followed by the repair, and fails when the spans
    run out. *)
Lemma put_back_brace_free non_ar tagged :
  brace_free tagged = true ->
  put_back format_beyond non_ar tagged
  = match restore non_ar tagged with
    | Some r => Done (cleanup r)
    | None => Raised BadIndex
    end.
Proof.
  intros Hb. unfold put_back. rewrite sub_pattern. cbn [bind].
  unfold Str.format.
  rewrite (fmt_fill format_beyond non_ar _ Init 0%nat);
    [|right; now split | rewrite has_brace_tokens, Hb; reflexivity].
  rewrite restore_fill. change (drop 0 non_ar) with non_ar.
  destruct (fill _ non_ar); reflexivity.
Qed.

End PutBackFacts.

Section Restoration.

Import Re Str.

Variable format_beyond : text -> list text -> numbering -> outcome text.

Lemma weave_take gaps :
  forall fills tl, weave gaps (take (length gaps) fills) tl = weave gaps fills tl.
Proof.
  induction gaps as [|g gaps IH]; intros [|f fills] tl; try reflexivity.
  simpl. now rewrite IH.
Qed.

Lemma span_starts_plain a : span_shape a -> starts_plain a.
Proof.
  intros (run & c & d & -> & Hlen & Hrun & _).
  destruct run as [|h run]; [simpl in Hlen; lia|].
  exists h, (run ++ [c; d]). split; [reflexivity|].
  inversion Hrun as [|? ? Hh _]; subst.
  destruct (is_brace h) eqn:E; [|reflexivity].
  destruct (is_brace_cases _ E) as [-> | ->]; vm_compute in Hh; discriminate.
Qed.



End Restoration.

Lemma span_shape_hello : span_shape (U "Hello world.").
Proof.
  exists (U "Hello worl"), 100, 46.
  split; [reflexivity|]. split; [vm_compute; lia|].
  split; [|split; reflexivity].
  apply List.Forall_forall. intros c Hc. vm_compute in Hc.
  repeat (destruct Hc as [<-|Hc]; [reflexivity|]). destruct Hc.
Qed.


(** C5 as the specification words it does not hold for a tagged text
    with braces.  An occurrence between braces is read by [str.format]
    as escaped braces around a slot that is none: one occurrence and no
    span, and nothing is raised.  A field [{1}] of the tagger's own
    puts the second span into a text without any occurrence: the extra
    spans are not dropped. *)
Lemma count_mismatch_with_braces :
  ~ (forall non_ar tagged,
       (length non_ar < slots tagged)%nat ->
       exists e,
         put_back (fun _ _ _ => Raised BadFormat) non_ar tagged = Raised e)
  /\ ~ (forall non_ar tagged,
          (slots tagged < length non_ar)%nat ->
          exists r,
            restore (take (slots tagged) non_ar) tagged = Some r
            /\ put_back (fun _ _ _ => Raised BadFormat) non_ar tagged
               = Done (cleanup r)).
Proof.
  split.
  - intros H.
    destruct (H [] (U "{S/S µ/PUNC µ/PUNC µ/PUNC E/E}")) as [e He].
    + vm_compute. lia.
    + vm_compute in He. discriminate.
  - intros H.
    destruct (H [U "Hello world."; U "Good morning."] (U "S/S {1}/X E/E"))
      as (r & Hr & Hp).
    + vm_compute. lia.
    + vm_compute in Hr. inversion Hr; subst r. vm_compute in Hp.
      discriminate.
Qed.

Example braces_hide_mismatch :
  put_back (fun _ _ _ => Raised BadFormat) []
    (U "{S/S µ/PUNC µ/PUNC µ/PUNC E/E}")
  = Done (U "{}").
Proof. vm_compute. reflexivity. Qed.

Example field_takes_extra_span :
  put_back (fun _ _ _ => Raised BadFormat)
    [U "Hello world."; U "Good morning."] (U "S/S {1}/X E/E")
  = Done (U "S/S Good morning./X E/E").
Proof. vm_compute. reflexivity. Qed.


Example doubled_braces :
  put_back (fun _ _ _ => Raised BadFormat) [U "Hello world."]
    (U "{{S/S µ/PUNC µ/PUNC µ/PUNC E/E}}")
  = Done (U "{Hello world.}").
Proof. vm_compute. reflexivity. Qed.

Example lone_brace :
  put_back (fun _ _ _ => Raised BadFormat) [U "Hello world."]
    (U "S/S {/PUNC E/E S/S µ/PUNC µ/PUNC µ/PUNC E/E")
  = Raised BadFormat.
Proof. vm_compute. reflexivity. Qed.

Section PreservationFacts.

Import Re Str.

Context {E : Env}.
Variable format_beyond : text -> list text -> numbering -> outcome text.

Lemma set_aside_eq doc :
  set_aside doc
  = Done (findall non_ar_regex doc,
          weave (map fst (finditer non_ar_regex doc).1)
            (map (fun _ => placeholder) (findall non_ar_regex doc))
            (finditer non_ar_regex doc).2).
Proof.
  unfold set_aside, Re.sub.
  change (parse_template placeholder) with (Done (map Lit placeholder)).
  cbn [bind]. rewrite sub_with_weave. do 3 f_equal.
  unfold findall. rewrite map_map. apply map_ext. intros [g m]. reflexivity.
Qed.

(** C2, as the script has it.  The spans set aside are the matches of
    the non-target pattern, in order; the document is the text between
    them with a span after each stretch, and the pre-processed text is
    the same with a placeholder line in place of each span: as many
    placeholder lines are inserted as spans are set aside.  The slots of
    the restoration are the occurrences of the placeholder pattern in
    what the tagger wrote, which the script does not count: when that
    text holds no brace and as many occurrences as there are spans, the
    i-th occurrence is replaced by the i-th span. *)
Theorem placeholders_match_spans (doc tagged : text) :
  exists non_ar ar_only gaps tl,
    set_aside doc = Done (non_ar, ar_only)
    /\ non_ar = findall non_ar_regex doc
    /\ length gaps = length non_ar
    /\ doc = weave gaps non_ar tl
    /\ ar_only = weave gaps (map (fun _ => placeholder) non_ar) tl
    /\ (brace_free tagged = true ->
        slots tagged = length non_ar ->
        exists tgaps ttl,
          length tgaps = length non_ar
          /\ tagged = weave tgaps (findall pattern tagged) ttl
          /\ put_back format_beyond non_ar tagged
             = Done (cleanup (weave tgaps non_ar ttl))).
Proof.
  exists (findall non_ar_regex doc). eexists.
  exists (map fst (finditer non_ar_regex doc).1), (finditer non_ar_regex doc).2.
  split; [apply set_aside_eq|]. split; [reflexivity|].
  split; [unfold findall; now rewrite !length_map|].
  split; [apply finditer_text|]. split; [reflexivity|].
  intros Hb Hk.
  exists (map fst (finditer pattern tagged).1), (finditer pattern tagged).2.
  split; [rewrite <- Hk, slots_length; apply length_map|].
  split; [apply finditer_text|].
  rewrite (put_back_brace_free _ _ _ Hb), restore_some by lia. reflexivity.
Qed.

(** Without a match nothing is set aside and the text is unchanged. *)
Lemma set_aside_nothing doc :
  findall non_ar_regex doc = [] -> set_aside doc = Done ([], doc).
Proof.
  intros H. unfold set_aside, Re.sub.
  change (parse_template placeholder) with (Done (map Lit placeholder)).
  cbn [bind]. now rewrite H, sub_with_no_match.
Qed.

Lemma put_back_nothing tagged :
  brace_free tagged = true -> slots tagged = O ->
  findall hashes_regex tagged = [] ->
  put_back format_beyond [] tagged = Done tagged.
Proof.
  intros Hb Hk Hh. rewrite (put_back_brace_free _ _ _ Hb).
  rewrite restore_some by (rewrite Hk; simpl; lia).
  pose proof (finditer_text pattern tagged) as Ht.
  rewrite slots_length in Hk.
  destruct (finditer pattern tagged) as [[|gm l] tl]; [|discriminate].
  cbn [fst snd map weave] in *. rewrite <- Ht.
  unfold cleanup. now rewrite sub_with_no_match.
Qed.


End PreservationFacts.

Lemma placeholders_match_spans_witness :
  let tagged := U "S/S µ/PUNC µ/PUNC µ/PUNC E/E" in
  (brace_free tagged = true /\ slots tagged = 1%nat)
  /\ exists non_ar ar_only,
       set_aside (U "Hello world.") = Done (non_ar, ar_only)
       /\ (brace_free tagged = true -> slots tagged = length non_ar ->
           exists tgaps ttl,
             put_back (fun _ _ _ => Raised BadFormat) non_ar tagged
             = Done (cleanup (weave tgaps non_ar ttl))).
Proof.
  intros tagged. split; [split; reflexivity|].
  destruct (placeholders_match_spans (fun _ _ _ => Raised BadFormat)
              (U "Hello world.") tagged)
    as (non_ar & ar_only & gaps & tl & H1 & _ & _ & _ & _ & H6).
  exists non_ar, ar_only. split; [exact H1|].
  intros Hb Hk. destruct (H6 Hb Hk) as (tgaps & ttl & _ & _ & H).
  now exists tgaps, ttl.
Defined.

(** C2 as the specification words it does not hold: the slots are the
    occurrences of the placeholder pattern in what the tagger wrote, and
    nothing ties their number to the number of spans.  Here the document
    has a line [µµµ] of its own before one Latin sentence: one span is
    set aside, and a tagger that renders every [µµµ] line the way
    [put_back] expects writes two occurrences. *)
Lemma slots_not_always_filled :
  ~ (forall (tagger : text -> text) doc non_ar ar_only,
       set_aside doc = Done (non_ar, ar_only) ->
       slots (tagger ar_only) = length non_ar).
Proof.
  intros H.
  specialize (H (fun _ => U "S/S µ/PUNC µ/PUNC µ/PUNC E/E"
                          ++ LF :: U "S/S µ/PUNC µ/PUNC µ/PUNC E/E")
                (U "µµµ" ++ LF :: U "Hello world.")
                [LF :: U "Hello world."]
                (U "µµµ" ++ placeholder) eq_refl).
  vm_compute in H. discriminate.
Qed.

(** The restoration then fails. *)
Example second_slot_unfilled :
  put_back (fun _ _ _ => Raised BadFormat) [LF :: U "Hello world."]
    (U "S/S µ/PUNC µ/PUNC µ/PUNC E/E"
       ++ LF :: U "S/S µ/PUNC µ/PUNC µ/PUNC E/E")
  = Raised BadIndex.
Proof. vm_compute. reflexivity. Qed.

(** With no occurrence in the tagged text nothing is substituted and the
    span is lost. *)
Example span_lost :
  put_back (fun _ _ _ => Raised BadFormat) [U "Hello world."] (U "S/S E/E")
  = Done (U "S/S E/E").
Proof. vm_compute. reflexivity. Qed.

Lemma demo_tool_writes jarfp f :
  tool_writes (E := Demo.env f) jarfp f.
Proof.
  intros fs infp outfp ki ko c Hne Hi Ho Hc Hw. exists (Text []).
  destruct outfp as [|o0 outfp]; [contradiction|].
  change (popen (command_line jarfp infp (o0 :: outfp)) fs)
    with (match Demo.locate infp, Demo.locate (o0 :: outfp) with
          | Done ki, Done ko =>
            match fs !! ki, fs !! ko with
            | Some (File _), Some Folder => Done (fs, Text [])
            | Some (File c), _ => Done (<[ko := File (Text (f c))]> fs, Text [])
            | _, _ => Done (fs, Text [])
            end
          | _, _ => Done (fs, Text [])
          end).
  change (Demo.locate infp) with (locate (Env := Demo.env f) infp).
  change (Demo.locate (o0 :: outfp))
    with (locate (Env := Demo.env f) (o0 :: outfp)).
  rewrite Hi, Ho, Hc. unfold writable in Hw.
  destruct (fs !! ko) as [[c'|]|]; [reflexivity | destruct Hw | reflexivity].
Qed.



(** The repair of hashes also changes the tagger's output. *)
Example hashes_repaired :
  put_back (fun _ _ _ => Raised BadFormat) [] (U "### S/S كتاب/NOUN E/E")
  = Done (U "S/S #/PUNC #/PUNC #/PUNC كتاب/NOUN E/E").
Proof. vm_compute. reflexivity. Qed.

(** * Beyond the claims *)

(** ** More on the segmentation flow *)

Section SegmentMore.

Context {E : Env}.

Lemma split_marker_plus t : split_marker PLUS t = t.
Proof.
  unfold split_marker. induction t as [|x t IH]; [reflexivity|].
  simpl. rewrite IH. destruct (N.eqb_spec x PLUS); congruence.
Qed.

Lemma segment_text_post r c t :
  c <> BACKSLASH -> segment_text r (Some [c]) t = Done (post r c t).
Proof.
  intros Hc. unfold segment_text, post. destruct r.
  - rewrite sub_ta_marbuta. cbn [bind]. now apply sub_plus.
  - cbn [bind]. now apply sub_plus.
Qed.

(** What [segment] does after the tool has run, for any setting of the
    reconnect flag and any one-character split marker but the
    backslash: it rewrites the output file, unless there is nothing to
    do. *)
Lemma segment_post (fs fs1 : files) (infp outfp : text) (r0 : option text)
    (raw : text) (r : bool) (c : char) :
  c <> BACKSLASH ->
  _call segmenter_jar infp outfp fs = (Done r0, fs1) ->
  read outfp fs1 = (Done raw, fs1) ->
  segment infp outfp r (Some [c]) fs
  = if r || negb (c =? PLUS) then write outfp (post r c raw) fs1
    else (Done tt, fs1).
Proof.
  intros Hc Hcall Hread. unfold segment, iobind. rewrite Hcall.
  cbn [is_plus]. destruct (r || negb (c =? PLUS)); [|reflexivity].
  rewrite Hread. unfold lift. now rewrite (segment_text_post _ _ _ Hc).
Qed.

Lemma split_marker_length c t : length (split_marker c t) = length t.
Proof. apply length_map. Qed.

Lemma split_marker_no_plus c t : c <> PLUS -> ~ In PLUS (split_marker c t).
Proof.
  intros Hc H. apply in_map_iff in H. destruct H as (x & Hx & _).
  destruct (N.eqb_spec x PLUS); congruence.
Qed.


Lemma unmark_split_marker c t :
  c <> PLUS -> (~ In c t <-> unmark c (split_marker c t) = t).
Proof.
  intros Hc. unfold unmark, split_marker. induction t as [|x t IH].
  - simpl. tauto.
  - simpl. split.
    + intros H. f_equal.
      * destruct (N.eqb_spec x PLUS) as [->|Hx].
        { now rewrite N.eqb_refl. }
        destruct (N.eqb_spec x c) as [->|_]; [|reflexivity].
        exfalso. apply H. now left.
      * apply IH. intros Ht. apply H. now right.
    + intros H. injection H as Hx Ht. intros [Hin|Hin].
      * subst x. revert Hx.
        destruct (N.eqb_spec c PLUS); [congruence|].
        rewrite N.eqb_refl. congruence.
      * apply IH in Ht. contradiction.
Qed.


Lemma reconnect_step a b t :
  reconnect (a :: b :: t)
  = if (a =? PLUS) && (b =? TA_MARBUTA) then TA_MARBUTA :: reconnect t
    else a :: reconnect (b :: t).
Proof. reflexivity. Qed.

Lemma drop_plus_reconnect t :
  drop_char PLUS (reconnect t) = drop_char PLUS t.
Proof.
  induction t as [|a|a b t IH1 IH2] using text_pair_ind; try reflexivity.
  rewrite reconnect_step.
  destruct (N.eqb_spec a PLUS) as [->|Ha]; cbn [andb].
  - destruct (N.eqb_spec b TA_MARBUTA) as [->|Hb].
    + change (drop_char PLUS (TA_MARBUTA :: reconnect t))
        with (TA_MARBUTA :: drop_char PLUS (reconnect t)).
      rewrite IH1. reflexivity.
    + change (drop_char PLUS (PLUS :: reconnect (b :: t)))
        with (drop_char PLUS (reconnect (b :: t))).
      rewrite IH2. reflexivity.
  - unfold drop_char in *. cbn [List.filter]. rewrite IH2.
    reflexivity.
Qed.

Lemma drop_marker c t :
  drop_char c (drop_char PLUS (split_marker c t))
  = drop_char c (drop_char PLUS t).
Proof.
  unfold drop_char, split_marker. induction t as [|x t IH]; [reflexivity|].
  cbn [map List.filter].
  destruct (N.eqb_spec x PLUS) as [->|Hx]; cbn [negb].
  - destruct (N.eqb_spec c PLUS) as [->|Hc]; cbn [negb].
    + exact IH.
    + cbn [List.filter]. rewrite N.eqb_refl. cbn [negb]. exact IH.
  - destruct (N.eqb_spec x PLUS); [contradiction|]. cbn [negb List.filter].
    rewrite IH. reflexivity.
Qed.


Lemma count_pair_cons a b x t :
  count_pair a b (x :: t)
  = if (x =? a) && starts b t then S (count_pair a b t) else count_pair a b t.
Proof. reflexivity. Qed.

Lemma count_triple_cons a b c x t :
  count_triple a b c (x :: t)
  = if (x =? a) && starts2 b c t then S (count_triple a b c t)
    else count_triple a b c t.
Proof. reflexivity. Qed.

(** A reconnection leaves [+ة] behind where the text had [++ة], and
    nowhere else. *)
Lemma reconnect_count t :
  count_pair PLUS TA_MARBUTA (reconnect t)
  = count_triple PLUS PLUS TA_MARBUTA t
  /\ starts TA_MARBUTA (reconnect t)
     = starts TA_MARBUTA t || starts2 PLUS TA_MARBUTA t.
Proof.
  induction t as [|a|a b t [IH1 IH1'] [IH2 IH2']] using text_pair_ind.
  - split; reflexivity.
  - split; [cbn; now rewrite andb_false_r | simpl; now rewrite orb_false_r].
  - rewrite reconnect_step.
    destruct ((a =? PLUS) && (b =? TA_MARBUTA)) eqn:Eab.
    + apply andb_true_iff in Eab. destruct Eab as [Ea Eb].
      apply N.eqb_eq in Ea, Eb. subst a b. split; [|reflexivity].
      rewrite count_pair_cons, IH1, !count_triple_cons.
      change (TA_MARBUTA =? PLUS) with false. cbn [andb].
      destruct t as [|z t]; cbn [starts2];
        change (TA_MARBUTA =? PLUS) with false; cbn [andb];
        now rewrite ?andb_false_r.
    + split.
      * rewrite count_pair_cons, IH2, IH2'.
        rewrite (count_triple_cons PLUS PLUS TA_MARBUTA a (b :: t)).
        destruct (a =? PLUS); [|reflexivity].
        cbn [andb] in *. cbn [starts]. now rewrite Eab.
      * cbn [starts starts2]. now rewrite Eab, orb_false_r.
Qed.


End SegmentMore.





(** ** More on the tagging flow *)

Section PosTagMore.

Import Re Str.

Context {E : Env}.
Variable format_beyond : text -> list text -> numbering -> outcome text.

(** X5. In removal mode [POS_tag] is three steps: it reads the input
    file, writes the pre-processed text to [temp.txt], and runs the
    tagger on that file.  The text processing between the first two
    cannot raise, whatever the document holds; the [only_Arabic] flag
    plays no part; and the output file is not opened afterwards.  So
    the only failures are those of the three steps. *)
Theorem removal_mode_steps (fs : files) (infp outfp : text)
    (only_Arabic : bool) :
  POS_tag format_beyond infp outfp only_Arabic true fs
  = (do! text0 := read infp in
     do! _ := write temp
                (tidy (remove_stray (sub_with non_ar_regex [Lit LF] text0))) in
     do! _ := _call tagger_jar temp outfp in ret tt) fs.
Proof.
  unfold POS_tag. rewrite andb_false_r. apply iobind_ext.
  intros text0 fs0. unfold iobind at 1, lift at 1. rewrite ditch_eq.
  reflexivity.
Qed.

Lemma read_same path fs r fs' : read path fs = (r, fs') -> fs' = fs.
Proof. unfold read. intros H. now inversion H. Qed.

Lemma write_done path t fs fs' :
  write path t fs = (Done tt, fs') ->
  exists k,
    locate path = Done k
    /\ fs' = <[k := File (Text (to_linesep linesep t))]> fs.
Proof.
  unfold write. destruct (locate path) as [k|e]; [|discriminate].
  intros H. exists k. split; [reflexivity|].
  destruct (encodable t);
    destruct (fs !! k) as [[c|]|]; try discriminate;
    try destruct (creatable k); try discriminate; now inversion H.
Qed.


End PosTagMore.


(** ** The batch driver *)

Section BatchFacts.

Context {E : Env}.

Lemma batch_loop_app flow infolder outfolder done :
  forall later fs,
  batch_loop flow infolder outfolder (done ++ later) fs
  = match batch_loop flow infolder outfolder done fs with
    | (ev, (Done _, fs1)) =>
      let '(ev', r) := batch_loop flow infolder outfolder later fs1 in
      (ev ++ ev', r)
    | (ev, (Raised e, fs1)) => (ev, (Raised e, fs1))
    end.
Proof.
  induction done as [|fn done IH]; intros later fs.
  - cbn [app batch_loop].
    now destruct (batch_loop flow infolder outfolder later fs).
  - cbn [app batch_loop].
    destruct (flow (path_join infolder fn) (path_join outfolder fn) fs)
      as [[[]|e] fs0]; [|reflexivity].
    rewrite IH.
    destruct (batch_loop flow infolder outfolder done fs0)
      as [ev [[[]|e] fs1]]; [|reflexivity].
    now destruct (batch_loop flow infolder outfolder later fs1).
Qed.

Lemma batch_loop_done flow infolder outfolder done :
  forall fs ev fs1,
  batch_loop flow infolder outfolder done fs = (ev, (Done tt, fs1)) ->
  ev = map Say done.
Proof.
  induction done as [|fn done IH]; intros fs ev fs1 H; cbn [batch_loop] in H.
  - now inversion H.
  - destruct (flow (path_join infolder fn) (path_join outfolder fn) fs)
      as [[[]|e] fs0]; [|discriminate].
    destruct (batch_loop flow infolder outfolder done fs0)
      as [ev' [r fs2]] eqn:El.
    inversion H; subst. cbn [map]. f_equal. eapply IH, El.
Qed.

(** X9. [batchprocess] has no error isolation: when the flow raises on
    an entry, the exception ends the batch.  The names printed are
    those of the entries before it and its own, and the store is left
    as the failing call left it: the entries after it in the directory
    listing are neither printed nor processed. *)
Theorem batch_stops_at_first_failure
    (flow : text -> text -> io unit) (fs fs1 fs2 : files)
    (infolder outfolder : text) (done later : list text) (fn : text)
    (ev : list event) (e : exn) :
  listdir infolder = Done (done ++ fn :: later) ->
  batch_loop flow infolder outfolder done fs = (ev, (Done tt, fs1)) ->
  flow (path_join infolder fn) (path_join outfolder fn) fs1
  = (Raised e, fs2) ->
  batchprocess flow infolder outfolder fs
  = (map Say (done ++ [fn]), (Raised e, fs2)).
Proof.
  intros Hls Hdone Hfn. unfold batchprocess. rewrite Hls.
  rewrite batch_loop_app, Hdone. cbn [batch_loop]. rewrite Hfn.
  rewrite (batch_loop_done _ _ _ _ _ _ _ Hdone), map_app. reflexivity.
Qed.

Lemma loop_transforms flow g infolder outfolder (kin kout : text -> string) :
  transforms flow g ->
  forall names fs,
  (forall fn, In fn names ->
     path_join outfolder fn <> []
     /\ locate (path_join infolder fn) = Done (kin fn)
     /\ locate (path_join outfolder fn) = Done (kout fn)) ->
  (forall fn, In fn names -> exists c, fs !! kin fn = Some (File c)) ->
  (forall fn, In fn names -> writable fs (kout fn)) ->
  (forall fn fn', In fn names -> In fn' names -> kout fn <> kin fn') ->
  (forall fn fn', In fn names -> In fn' names ->
     kout fn = kout fn' -> kin fn = kin fn') ->
  exists fs',
    batch_loop flow infolder outfolder names fs
    = (map Say names, (Done tt, fs'))
    /\ (forall fn c, In fn names -> fs !! kin fn = Some (File c) ->
          fs' !! kout fn = Some (File (Text (g c))))
    /\ (forall k, (forall fn, In fn names -> k <> kout fn) ->
          fs' !! k = fs !! k).
Proof.
  intros Hflow.
  induction names as [|fn names IH]; intros fs Hp Hin Hw Hio Hoo.
  - exists fs. split; [reflexivity|]. split; [intros ? ? []|reflexivity].
  - destruct (Hp fn (or_introl eq_refl)) as (Hne & Hki & Hko).
    destruct (Hin fn (or_introl eq_refl)) as [c Hc].
    pose proof (Hflow fs _ _ _ _ c Hne Hki Hko Hc (Hw fn (or_introl eq_refl)))
      as Hrun.
    set (fs1 := <[kout fn := File (Text (g c))]> fs) in *.
    assert (Hkeep : forall fn', In fn' (fn :: names) ->
              fs1 !! kin fn' = fs !! kin fn').
    { intros fn' Hfn'. unfold fs1. apply lookup_insert_ne.
      apply Hio; [now left | exact Hfn']. }
    destruct (IH fs1) as (fs' & Hloop & Hout & Hframe).
    { intros fn' Hfn'. apply Hp. now right. }
    { intros fn' Hfn'. rewrite Hkeep by now right. apply Hin. now right. }
    { intros fn' Hfn'. apply writable_insert. apply Hw. now right. }
    { intros a b Ha Hb. apply Hio; now right. }
    { intros a b Ha Hb. apply Hoo; now right. }
    exists fs'. split; [|split].
    + cbn [batch_loop]. rewrite Hrun, Hloop. reflexivity.
    + intros fn0 c0 Hfn0 Hc0.
      destruct (decide (Exists (fun fn' => kout fn' = kout fn0) names))
        as [Hex|Hnex].
      * apply List.Exists_exists in Hex. destruct Hex as (fn' & Hfn' & Heq).
        rewrite <- Heq. apply Hout; [exact Hfn'|].
        rewrite Hkeep by now right.
        rewrite (Hoo fn' fn0); [exact Hc0 | now right | exact Hfn0 | exact Heq].
      * assert (Hk : kout fn0 = kout fn /\ kin fn0 = kin fn).
        { destruct Hfn0 as [->|Hfn0]; [now split|].
          exfalso. apply Hnex. apply List.Exists_exists. now exists fn0. }
        destruct Hk as [Hk1 Hk2]. rewrite Hframe.
        -- unfold fs1. rewrite Hk1, lookup_insert_eq.
           rewrite Hk2 in Hc0. congruence.
        -- intros fn' Hfn' Heq. apply Hnex. apply List.Exists_exists.
           now exists fn'.
    + intros k Hk. rewrite Hframe.
      * unfold fs1. apply lookup_insert_ne. intros Heq. apply (Hk fn); auto.
        now left.
      * intros fn' Hfn'. apply Hk. now right.
Qed.

Lemma reconnect_In x t : In x (reconnect t) -> In x t.
Proof.
  induction t as [|a|a b t IH1 IH2] using text_pair_ind; try tauto.
  rewrite reconnect_step.
  destruct ((a =? PLUS) && (b =? TA_MARBUTA)) eqn:Eab.
  - apply andb_true_iff in Eab. destruct Eab as [_ Eb].
    apply N.eqb_eq in Eb. subst b. intros [<-|H].
    + right. now left.
    + right. right. now apply IH1.
  - intros [<-|H]; [now left|]. right. now apply IH2.
Qed.

Lemma encodable_post r c t :
  encodable [c] = true -> encodable t = true -> encodable (post r c t) = true.
Proof.
  unfold encodable. rewrite !forallb_forall. intros Hc Ht x Hx.
  unfold post, split_marker in Hx. apply in_map_iff in Hx.
  destruct Hx as (y & <- & Hy).
  destruct (y =? PLUS); [apply Hc; now left|].
  apply Ht. destruct r; [now apply reconnect_In | exact Hy].
Qed.

(** With a tool that does its work, [segment] leaves in the output file
    what the tool wrote, post-processed. *)
Lemma segment_transforms (f : content -> text) r c :
  tool_writes segmenter_jar f ->
  (forall c0, encodable (f c0) = true) ->
  c <> BACKSLASH -> encodable [c] = true ->
  transforms (fun i o => segment i o r (Some [c]))
    (fun c0 => resegmented r c (f c0)).
Proof.
  intros Htool Henc Hc Hec fs i o ki ko c0 Hne Hki Hko Hc0 Hw.
  pose proof (call_tool _ _ _ _ _ _ _ _ Htool Hne Hki Hko Hc0 Hw) as Hcall.
  assert (Hread : read o (<[ko := File (Text (f c0))]> fs)
                  = (Done (universal (f c0)), <[ko := File (Text (f c0))]> fs))
    by (apply (read_text _ ko); [exact Hko | apply lookup_insert_eq]).
  rewrite (segment_post _ _ _ _ _ _ _ _ Hc Hcall Hread).
  unfold resegmented. destruct (r || negb (c =? PLUS)); [|reflexivity].
  rewrite (write_text _ ko); [now rewrite insert_insert_eq | exact Hko | |].
  - eapply writable_file, lookup_insert_eq.
  - apply encodable_post; [exact Hec|]. now apply encodable_universal.
Qed.


End BatchFacts.

(** The second entry of the folder is missing: the tool writes nothing
    for it, and [segment] fails to open its output. *)
Lemma batch_stops_at_first_failure_witness :
  let E := Demo.env Demo.copy in
  let flow := fun i o => segment i o true None in
  let fs : files := {[ "in/a.txt"%string := File (Text (U "كتاب+ة")) ]} in
  let fs1 : files := <["out/a.txt"%string := File (Text (U "كتابة"))]> fs in
  (listdir (U "in") = Done ([U "a.txt"] ++ U "b.txt" :: [])
   /\ batch_loop flow (U "in") (U "out") [U "a.txt"] fs
      = ([Say (U "a.txt")], (Done tt, fs1))
   /\ flow (path_join (U "in") (U "b.txt")) (path_join (U "out") (U "b.txt"))
        fs1
      = (Raised NoSuchFile, fs1))
  /\ batchprocess flow (U "in") (U "out") fs
     = (map Say ([U "a.txt"] ++ [U "b.txt"]), (Raised NoSuchFile, fs1)).
Proof.
  intros E flow fs fs1.
  assert (H0 : listdir (U "in") = Done ([U "a.txt"] ++ U "b.txt" :: []))
    by reflexivity.
  assert (H1 : batch_loop flow (U "in") (U "out") [U "a.txt"] fs
               = ([Say (U "a.txt")], (Done tt, fs1)))
    by (vm_compute; reflexivity).
  assert (H2 : flow (path_join (U "in") (U "b.txt"))
                 (path_join (U "out") (U "b.txt")) fs1
               = (Raised NoSuchFile, fs1)) by (vm_compute; reflexivity).
  split; [tauto|].
  exact (batch_stops_at_first_failure flow fs fs1 fs1 (U "in") (U "out")
           [U "a.txt"] [] (U "b.txt") _ NoSuchFile H0 H1 H2).
Defined.


(** ** The command line *)

Lemma text_eqb_eq (a b : text) : text_eqb a b = true <-> a = b.
Proof.
  revert b. induction a as [|x a IH]; intros [|y b]; cbn [text_eqb];
    try (split; [discriminate | discriminate]); [tauto|].
  rewrite andb_true_iff, N.eqb_eq, IH.
  split; [intros [-> ->]; reflexivity | intros H; injection H; auto].
Qed.

Lemma text_eqb_neq (a b : text) : a <> b -> text_eqb a b = false.
Proof.
  intros H. destruct (text_eqb a b) eqn:E; [|reflexivity].
  apply text_eqb_eq in E. contradiction.
Qed.

Lemma text_eqb_refl (a : text) : text_eqb a a = true.
Proof. now apply text_eqb_eq. Qed.

(** A short option that takes a value, given as two arguments. *)
Lemma getopt_short_value (so : text) (lo : list text) (c : char)
    (v : text) (rest : list text) :
  c <> Getopt.DASH -> Getopt.short_has_arg c so = inr true ->
  Getopt.getopt so lo ([Getopt.DASH; c] :: v :: rest)
  = match Getopt.getopt so lo rest with
    | inl e => inl e
    | inr (os, remaining) => inr (([Getopt.DASH; c], v) :: os, remaining)
    end.
Proof.
  intros Hc Hs. apply N.eqb_neq in Hc.
  change (Getopt.getopt so lo ([Getopt.DASH; c] :: v :: rest))
    with (if (Getopt.DASH =? Getopt.DASH) && true
             && negb ((Getopt.DASH =? Getopt.DASH) && false) then
            if (Getopt.DASH =? Getopt.DASH) && ((c =? Getopt.DASH) && true)
            then inr ([], v :: rest)
            else
              let parsed :=
                if (Getopt.DASH =? Getopt.DASH) && ((Getopt.DASH =? c) && true)
                then
                  match Getopt.do_longs lo [] (v :: rest) with
                  | inl e => inl e
                  | inr (o, used) => inr ([o], used)
                  end
                else Getopt.do_shorts so [c] (v :: rest) in
              match parsed with
              | inl e => inl e
              | inr (os, used) =>
                let continue :=
                  if used then Getopt.getopt so lo rest
                  else Getopt.getopt so lo (v :: rest) in
                match continue with
                | inl e => inl e
                | inr (os', remaining) => inr (os ++ os', remaining)
                end
              end
          else inr ([], [Getopt.DASH; c] :: v :: rest)).
  rewrite N.eqb_refl, (N.eqb_sym Getopt.DASH c), Hc.
  cbn [andb negb Getopt.do_shorts]. rewrite Hs. reflexivity.
Qed.

(** A short option that takes no value. *)
Lemma getopt_short_flag (so : text) (lo : list text) (c : char)
    (rest : list text) :
  c <> Getopt.DASH -> Getopt.short_has_arg c so = inr false ->
  Getopt.getopt so lo ([Getopt.DASH; c] :: rest)
  = match Getopt.getopt so lo rest with
    | inl e => inl e
    | inr (os, remaining) => inr (([Getopt.DASH; c], []) :: os, remaining)
    end.
Proof.
  intros Hc Hs. apply N.eqb_neq in Hc.
  change (Getopt.getopt so lo ([Getopt.DASH; c] :: rest))
    with (if (Getopt.DASH =? Getopt.DASH) && true
             && negb ((Getopt.DASH =? Getopt.DASH) && false) then
            if (Getopt.DASH =? Getopt.DASH) && ((c =? Getopt.DASH) && true)
            then inr ([], rest)
            else
              let parsed :=
                if (Getopt.DASH =? Getopt.DASH) && ((Getopt.DASH =? c) && true)
                then
                  match Getopt.do_longs lo [] rest with
                  | inl e => inl e
                  | inr (o, used) => inr ([o], used)
                  end
                else Getopt.do_shorts so [c] rest in
              match parsed with
              | inl e => inl e
              | inr (os, used) =>
                let continue :=
                  if used then
                    match rest with
                    | _ :: rest' => Getopt.getopt so lo rest'
                    | [] => inr ([], [])
                    end
                  else Getopt.getopt so lo rest in
                match continue with
                | inl e => inl e
                | inr (os', remaining) => inr (os ++ os', remaining)
                end
              end
          else inr ([], [Getopt.DASH; c] :: rest)).
  rewrite N.eqb_refl, (N.eqb_sym Getopt.DASH c), Hc.
  cbn [andb negb Getopt.do_shorts]. rewrite Hs. reflexivity.
Qed.

(** An argument that does not start with a dash ends the options. *)
Lemma getopt_stops (so : text) (lo : list text) (rest : list text) :
  startswith (U "-") (hd [] rest) = false ->
  exists remaining, Getopt.getopt so lo rest = inr ([], remaining).
Proof.
  destruct rest as [|a rest]; [now exists []|].
  cbn [hd Getopt.getopt]. intros ->. now exists (a :: rest).
Qed.

(** The help option, wherever it stands among the options. *)
Lemma read_opts_help (opts : list (text * text)) (opt arg : text) :
  In (opt, arg) opts -> is_opt opt [U "-h"; U "--help"] = true ->
  forall st, read_opts opts st = None.
Proof.
  intros Hin Hh. induction opts as [|[o a] opts IH]; [destruct Hin|].
  intros st. cbn [read_opts]. destruct Hin as [E|Hin].
  - injection E as -> ->. now rewrite Hh.
  - repeat match goal with
           | |- (if ?b then _ else _) = _ => destruct b; [try reflexivity|]
           end; auto.
Qed.

Lemma getopt_command (f i o : text) (rest : list text) :
  Getopt.getopt opt_str opt_list (command f i o ++ rest)
  = match Getopt.getopt opt_str opt_list rest with
    | inl e => inl e
    | inr (os, remaining) =>
      inr ((U "-f", f) :: (U "-i", i) :: (U "-o", o) :: os, remaining)
    end.
Proof.
  change (command f i o ++ rest)
    with ([Getopt.DASH; 102] :: f :: [Getopt.DASH; 105] :: i
          :: [Getopt.DASH; 111] :: o :: rest).
  rewrite !getopt_short_value by (discriminate || reflexivity).
  destruct (Getopt.getopt opt_str opt_list rest) as [e|[os remaining]];
    reflexivity.
Qed.

Lemma getopt_switches (d r : bool) (s : option text) :
  exists os,
    Getopt.getopt opt_str opt_list (switches d r s) = inr (os, [])
    /\ forall st,
         read_opts os st
         = Some {| ditch_non_Arabic := d || ditch_non_Arabic st;
                   restore_ta_marbuta := r || restore_ta_marbuta st;
                   func := func st; infp := infp st; outfp := outfp st;
                   split_char := match s with
                                 | Some v => Some v
                                 | None => split_char st
                                 end |}.
Proof.
  destruct d, r, s as [v|]; eexists; (split; [reflexivity|]);
    intros []; reflexivity.
Qed.

Lemma getopt_long_flag (so : text) (lo : list text) (name : text)
    (rest : list text) :
  name <> [] ->
  Getopt.split_equals name = (name, None) ->
  Getopt.long_has_args name lo = inr (false, name) ->
  Getopt.getopt so lo ((U "--" ++ name) :: rest)
  = match Getopt.getopt so lo rest with
    | inl e => inl e
    | inr (os, remaining) => inr ((U "--" ++ name, []) :: os, remaining)
    end.
Proof.
  intros Hn Hsplit Hlong. destruct name as [|c name]; [contradiction|].
  change (U "--" ++ c :: name) with (Getopt.DASH :: Getopt.DASH :: c :: name).
  cbn [Getopt.getopt].
  change (U "-") with [Getopt.DASH].
  change (U "--") with [Getopt.DASH; Getopt.DASH].
  cbn [startswith text_eqb skipn]. rewrite N.eqb_refl.
  cbn [andb negb]. unfold Getopt.do_longs. rewrite Hsplit, Hlong.
  destruct (Getopt.getopt so lo rest) as [e|[os remaining]]; reflexivity.
Qed.

Lemma getopt_long_plain (name : text) (rest : list text) :
  In name valued_long ->
  Getopt.getopt opt_str opt_list ((U "--" ++ name) :: rest)
  = match Getopt.getopt opt_str opt_list rest with
    | inl e => inl e
    | inr (os, remaining) => inr ((U "--" ++ name, []) :: os, remaining)
    end.
Proof.
  intros [<-|[<-|[<-|[<-|[]]]]];
    (apply getopt_long_flag; [discriminate | reflexivity | reflexivity]).
Qed.

Lemma short_has_arg_unknown (c : char) (so : text) :
  (forall x, In x so -> x <> Getopt.COLON -> c <> x) ->
  Getopt.short_has_arg c so = inl (Getopt.NotRecognized false [c]).
Proof.
  induction so as [|x so IH]; intros H; [reflexivity|].
  cbn [Getopt.short_has_arg].
  destruct (N.eqb_spec x Getopt.COLON) as [Hx|Hx].
  - rewrite andb_false_r. apply IH. intros y Hy. apply H. now right.
  - destruct (N.eqb_spec c x) as [Hc|Hc].
    + exfalso. exact (H x (or_introl eq_refl) Hx Hc).
    + cbn [andb]. apply IH. intros y Hy. apply H. now right.
Qed.

Lemma getopt_short_unknown (so : text) (lo : list text) (c : char)
    (rest : list text) (e : Getopt.error) :
  c <> Getopt.DASH -> Getopt.short_has_arg c so = inl e ->
  Getopt.getopt so lo ([Getopt.DASH; c] :: rest) = inl e.
Proof.
  intros Hc Hs. apply N.eqb_neq in Hc.
  cbn [Getopt.getopt].
  change (U "-") with [Getopt.DASH].
  change (U "--") with [Getopt.DASH; Getopt.DASH].
  cbn [startswith text_eqb skipn].
  rewrite N.eqb_refl, (N.eqb_sym Getopt.DASH c), Hc.
  cbn [andb negb Getopt.do_shorts]. rewrite Hs. reflexivity.
Qed.

Section MainFacts.

Context {E : Env}.
Variable format_beyond : text -> list text -> Str.numbering -> outcome text.

Local Abbreviation script := (main format_beyond).
Local Abbreviation run_with := (run format_beyond).

(** The options a full command line sets. *)
Lemma main_command (f i o : text) (d r : bool) (s : option text)
    (fs : files) (stdin : list text) :
  script (command f i o ++ switches d r s) fs stdin
  = run_with {| ditch_non_Arabic := d; restore_ta_marbuta := r;
                func := Some f; infp := Some i; outfp := Some o;
                split_char := s |} fs stdin.
Proof.
  unfold main. rewrite getopt_command.
  destruct (getopt_switches d r s) as (os & -> & Hos).
  change (read_opts ((U "-f", f) :: (U "-i", i) :: (U "-o", o) :: os)
            no_options)
    with (read_opts os
            {| ditch_non_Arabic := false; restore_ta_marbuta := false;
               func := Some f; infp := Some i; outfp := Some o;
               split_char := None |}).
  rewrite Hos. cbn [ditch_non_Arabic restore_ta_marbuta func infp outfp
                    split_char].
  rewrite !orb_false_r. now destruct s.
Qed.

(** [main] past the prompts, when nothing is left to ask. *)
Lemma run_given (st : options) (f i o : text) (fs : files)
    (stdin : list text) :
  func st = Some f -> f <> [] -> infp st = Some i -> i <> [] ->
  outfp st = Some o -> o <> [] ->
  run_with st fs stdin
  = if text_eqb f (U "segment") then
      dispatch
        (fun i o => segment i o (restore_ta_marbuta st) (split_char st))
        i o fs
    else if text_eqb f (U "POS_tag") then
      dispatch
        (fun i o => POS_tag format_beyond i o true (ditch_non_Arabic st))
        i o fs
    else ([], Returned, fs).
Proof.
  intros Hf Nf Hi Ni Ho No. unfold run, ask_path.
  rewrite Hf, Hi, Ho.
  destruct f as [|cf f]; [contradiction|].
  destruct i as [|ci i]; [contradiction|].
  destruct o as [|co o]; [contradiction|].
  cbn [falsy value].
  destruct (text_eqb (cf :: f) (U "segment"));
    [|destruct (text_eqb (cf :: f) (U "POS_tag"))];
    try match goal with
    | |- context [dispatch ?a ?b ?c ?d] =>
      destruct (dispatch a b c d) as [[ev4 e] fs']
    end; reflexivity.
Qed.

Lemma isfile_not_dir i fs : isfile i fs = true -> isdir i fs = false.
Proof.
  unfold isfile, isdir. destruct (locate i) as [k|]; [|reflexivity].
  destruct (fs !! k) as [[c|]|]; try discriminate; reflexivity.
Qed.

(** A file is handed to the flow, and how the flow ends is how the run
    ends. *)
Lemma dispatch_file flow i o fs :
  isfile i fs = true ->
  dispatch flow i o fs = let '(r, fs') := flow i o fs in ([], finish r, fs').
Proof.
  intros H. unfold dispatch. now rewrite (isfile_not_dir _ _ H), H.
Qed.

(** Without a split character the output file is rewritten all the
    same, reconnected if that was asked. *)
Lemma segment_plain (fs fs1 : files) (i o : text) (r0 : option text)
    (raw : text) (r : bool) :
  _call segmenter_jar i o fs = (Done r0, fs1) ->
  read o fs1 = (Done raw, fs1) ->
  segment i o r None fs = write o (if r then reconnect raw else raw) fs1.
Proof.
  intros Hcall Hread. unfold segment, iobind. rewrite Hcall.
  cbn [is_plus negb]. rewrite orb_true_r, Hread.
  unfold lift, segment_text. destruct r; [|reflexivity].
  now rewrite sub_ta_marbuta.
Qed.

(** X11. When the options parse and one of them is the help option,
    [main] prints the help text and returns: nothing is asked, and the
    store is left as it was, whatever the other options are and
    wherever the help option stands among them. *)
Theorem main_help (argv : list text) (fs : files) (stdin : list text)
    (opts : list (text * text)) (rest : list text) (opt arg : text) :
  Getopt.getopt opt_str opt_list argv = inr (opts, rest) ->
  In (opt, arg) opts -> opt = U "-h" \/ opt = U "--help" ->
  script argv fs stdin = ([Say info], Returned, fs).
Proof.
  intros H Hin Ho. unfold main. rewrite H.
  rewrite (read_opts_help opts opt arg Hin); [reflexivity|].
  destruct Ho as [-> | ->]; reflexivity.
Qed.

(** X12. The long options [--func], [--inpath], [--outpath] and
    [--split_char] are declared to [getopt] without a trailing [=], so
    they take no value: given as [--name=value], the script prints the
    error of [getopt] and the help text and exits with status 2; the
    store is left as it was. *)
Theorem long_option_rejects_value (name v : text) (rest : list text)
    (fs : files) (stdin : list text) :
  In name valued_long ->
  script ((U "--" ++ name ++ [Getopt.EQUALS] ++ v) :: rest) fs stdin
  = ([Say (U "option --" ++ name ++ U " must not have an argument");
      Say (U "Input incorrect: " ++ [LF] ++ info)],
     Exited 2, fs).
Proof.
  intros [<-|[<-|[<-|[<-|[]]]]]; vm_compute; reflexivity.
Qed.

(** X13. Given as [--name value], with the value a separate argument
    that does not start with a dash, the same four long options have no
    effect: the value ends option parsing, the option sets its variable
    to the empty string, and the script runs as if started with no
    arguments at all. *)
Theorem long_option_without_effect (name : text) (rest : list text)
    (fs : files) (stdin : list text) :
  In name valued_long ->
  startswith (U "-") (hd [] rest) = false ->
  script ((U "--" ++ name) :: rest) fs stdin = script [] fs stdin.
Proof.
  intros Hin Hrest. unfold main. rewrite (getopt_long_plain _ _ Hin).
  destruct (getopt_stops opt_str opt_list rest Hrest) as [remaining ->].
  destruct Hin as [<-|[<-|[<-|[<-|[]]]]]; reflexivity.
Qed.

(** X14. A function name given with [-f] is never checked: with any
    non-empty name other than [segment] and [POS_tag], and both paths
    given, the script returns without printing anything and leaves the
    store as it was. *)
Theorem unknown_function_is_silent (f i o : text) (d r : bool)
    (s : option text) (fs : files) (stdin : list text) :
  f <> [] -> i <> [] -> o <> [] ->
  f <> U "segment" -> f <> U "POS_tag" ->
  script (command f i o ++ switches d r s) fs stdin = ([], Returned, fs).
Proof.
  intros Nf Ni No Hs Hp. rewrite main_command.
  rewrite (run_given _ f i o) by (reflexivity || assumption).
  now rewrite !text_eqb_neq.
Qed.

(** X15. A function name typed at the prompt is checked, and as typed:
    unlike the two paths it is not stripped.  Any line other than
    exactly [segment] or [POS_tag] makes the script print the abort
    message and return, before it asks for a path; the store is left
    as it was. *)
Theorem prompted_function_is_checked (line : text) (fs : files)
    (stdin : list text) :
  line <> U "segment" -> line <> U "POS_tag" ->
  script [] fs (line :: stdin)
  = ([Ask prompt_func; Say (U "Aborting: unknown function.")], Returned, fs).
Proof.
  intros Hs Hp. unfold main.
  change (Getopt.getopt opt_str opt_list []) with
    (@inr Getopt.error _ (@nil (text * text), @nil text)).
  cbn [read_opts]. unfold run. cbn [falsy func no_options].
  unfold is_opt, Getopt.mem. cbn [existsb].
  now rewrite !text_eqb_neq.
Qed.




(** X19. An input path that is neither a folder nor a file: for either
    function the script prints the abort message with the path and
    returns; the store is left as it was, and the exit is a normal
    return. *)
Theorem main_missing_path (f i o : text) (d r : bool) (s : option text)
    (fs : files) (stdin : list text) :
  f = U "segment" \/ f = U "POS_tag" ->
  i <> [] -> o <> [] ->
  isdir i fs = false -> isfile i fs = false ->
  script (command f i o ++ switches d r s) fs stdin
  = ([Say (U "Aborting. No such file or folder: " ++ i)], Returned, fs).
Proof.
  intros Hf Ni No Hdir Hfile. rewrite main_command.
  rewrite (run_given _ f i o)
    by (reflexivity || assumption || (destruct Hf; subst; discriminate)).
  unfold dispatch. rewrite Hdir, Hfile.
  destruct Hf; subst f.
  - now rewrite text_eqb_refl.
  - change (text_eqb (U "POS_tag") (U "segment")) with false.
    now rewrite text_eqb_refl.
Qed.


(** X21. A command line that starts with a one-letter option the script
    does not know ends the run with exit status 2: the script prints
    the message of [getopt] and then the help text under the heading
    [Input incorrect:], asks nothing, and leaves the store as it was. *)
Theorem unknown_option_exits (c : char) (rest : list text) (fs : files)
    (stdin : list text) :
  c <> Getopt.DASH -> ~ In c (U "hdrfios") ->
  script ([Getopt.DASH; c] :: rest) fs stdin
  = ([Say (U "option -" ++ [c] ++ U " not recognized");
      Say (U "Input incorrect: " ++ [LF] ++ info)],
     Exited 2, fs).
Proof.
  intros Hc Hn. unfold main.
  rewrite (getopt_short_unknown _ _ _ _
             (Getopt.NotRecognized false [c]) Hc); [reflexivity|].
  apply short_has_arg_unknown. intros x Hx Hcolon ->. apply Hn.
  vm_compute in Hx, Hcolon. vm_compute. intuition congruence.
Qed.

(** X22. A value-taking short option that is the whole command line,
    without its value, ends the run in the same way, with the message
    that the option requires an argument. *)
Theorem missing_value_exits (c : char) (fs : files) (stdin : list text) :
  In c (U "fios") ->
  script [[Getopt.DASH; c]] fs stdin
  = ([Say (U "option -" ++ [c] ++ U " requires argument");
      Say (U "Input incorrect: " ++ [LF] ++ info)],
     Exited 2, fs).
Proof.
  intros [<-|[<-|[<-|[<-|[]]]]]; vm_compute; reflexivity.
Qed.

End MainFacts.

Lemma main_help_witness :
  let E := Demo.env Demo.copy in
  let argv := [U "-f"; U "segment"; U "--help"] in
  let opts := [(U "-f", U "segment"); (U "--help", [])] in
  (Getopt.getopt opt_str opt_list argv = inr (opts, [])
   /\ In (U "--help", []) opts
   /\ (U "--help" = U "-h" \/ U "--help" = U "--help"))
  /\ main Demo.format_beyond argv ∅ [] = ([Say info], Returned, ∅).
Proof.
  intros E argv opts.
  assert (H1 : Getopt.getopt opt_str opt_list argv = inr (opts, []))
    by (vm_compute; reflexivity).
  assert (H2 : In (U "--help", []) opts) by (right; left; reflexivity).
  assert (H3 : U "--help" = U "-h" \/ U "--help" = U "--help")
    by (right; reflexivity).
  split; [split; [exact H1 | split; [exact H2 | exact H3]]|].
  exact (main_help Demo.format_beyond argv ∅ [] opts [] (U "--help") []
           H1 H2 H3).
Defined.

Lemma long_option_rejects_value_witness :
  let E := Demo.env Demo.copy in
  In (U "func") valued_long
  /\ main Demo.format_beyond
       ((U "--" ++ U "func" ++ [Getopt.EQUALS] ++ U "segment") :: []) ∅ []
     = ([Say (U "option --" ++ U "func" ++ U " must not have an argument");
         Say (U "Input incorrect: " ++ [LF] ++ info)],
        Exited 2, ∅).
Proof.
  intros E.
  assert (H1 : In (U "func") valued_long) by (left; reflexivity).
  split; [exact H1|].
  exact (long_option_rejects_value Demo.format_beyond (U "func")
           (U "segment") [] ∅ [] H1).
Defined.

Lemma long_option_without_effect_witness :
  let E := Demo.env Demo.copy in
  (In (U "func") valued_long
   /\ startswith (U "-") (hd [] [U "segment"]) = false)
  /\ main Demo.format_beyond ((U "--" ++ U "func") :: [U "segment"]) ∅ []
     = main Demo.format_beyond [] ∅ [].
Proof.
  intros E.
  assert (H1 : In (U "func") valued_long) by (left; reflexivity).
  assert (H2 : startswith (U "-") (hd [] [U "segment"]) = false)
    by reflexivity.
  split; [split; [exact H1 | exact H2]|].
  exact (long_option_without_effect Demo.format_beyond (U "func")
           [U "segment"] ∅ [] H1 H2).
Defined.

Lemma unknown_function_is_silent_witness :
  let E := Demo.env Demo.copy in
  (U "tokenize" <> [] /\ U "a" <> [] /\ U "b" <> []
   /\ U "tokenize" <> U "segment" /\ U "tokenize" <> U "POS_tag")
  /\ main Demo.format_beyond
       (command (U "tokenize") (U "a") (U "b") ++ switches false false None)
       ∅ []
     = ([], Returned, ∅).
Proof.
  intros E.
  assert (H1 : U "tokenize" <> []) by discriminate.
  assert (H2 : U "a" <> []) by discriminate.
  assert (H3 : U "b" <> []) by discriminate.
  assert (H4 : U "tokenize" <> U "segment") by discriminate.
  assert (H5 : U "tokenize" <> U "POS_tag") by discriminate.
  split; [tauto|].
  exact (unknown_function_is_silent Demo.format_beyond (U "tokenize")
           (U "a") (U "b") false false None ∅ [] H1 H2 H3 H4 H5).
Defined.

Lemma prompted_function_is_checked_witness :
  let E := Demo.env Demo.copy in
  (U "segment " <> U "segment" /\ U "segment " <> U "POS_tag")
  /\ main Demo.format_beyond [] ∅ [U "segment "]
     = ([Ask prompt_func; Say (U "Aborting: unknown function.")],
        Returned, ∅).
Proof.
  intros E.
  assert (H1 : U "segment " <> U "segment") by discriminate.
  assert (H2 : U "segment " <> U "POS_tag") by discriminate.
  split; [tauto|].
  exact (prompted_function_is_checked Demo.format_beyond (U "segment ")
           ∅ [] H1 H2).
Defined.




Lemma main_missing_path_witness :
  let E := Demo.env Demo.copy in
  let fs : files := ∅ in
  ((U "POS_tag" = U "segment" \/ U "POS_tag" = U "POS_tag")
   /\ U "a" <> [] /\ U "b" <> []
   /\ isdir (U "a") fs = false /\ isfile (U "a") fs = false)
  /\ main Demo.format_beyond
       (command (U "POS_tag") (U "a") (U "b") ++ switches true false None)
       fs []
     = ([Say (U "Aborting. No such file or folder: " ++ U "a")],
        Returned, fs).
Proof.
  intros E fs.
  assert (H0 : U "POS_tag" = U "segment" \/ U "POS_tag" = U "POS_tag")
    by (right; reflexivity).
  assert (H1 : U "a" <> []) by discriminate.
  assert (H2 : U "b" <> []) by discriminate.
  assert (H3 : isdir (U "a") fs = false) by reflexivity.
  assert (H4 : isfile (U "a") fs = false) by reflexivity.
  split; [tauto|].
  exact (main_missing_path Demo.format_beyond (U "POS_tag") (U "a")
           (U "b") true false None fs [] H0 H1 H2 H3 H4).
Defined.


Lemma unknown_option_exits_witness :
  let E := Demo.env Demo.copy in
  (120 <> Getopt.DASH /\ ~ In 120 (U "hdrfios"))
  /\ main Demo.format_beyond ([Getopt.DASH; 120] :: [U "a"]) ∅ []
     = ([Say (U "option -" ++ [120] ++ U " not recognized");
         Say (U "Input incorrect: " ++ [LF] ++ info)],
        Exited 2, ∅).
Proof.
  intros E.
  assert (H1 : 120 <> Getopt.DASH) by discriminate.
  assert (H2 : ~ In 120 (U "hdrfios"))
    by (vm_compute; intuition discriminate).
  split; [tauto|].
  exact (unknown_option_exits Demo.format_beyond 120 [U "a"] ∅ [] H1 H2).
Defined.

Lemma missing_value_exits_witness :
  let E := Demo.env Demo.copy in
  In 102 (U "fios")
  /\ main Demo.format_beyond [[Getopt.DASH; 102]] ∅ []
     = ([Say (U "option -" ++ [102] ++ U " requires argument");
         Say (U "Input incorrect: " ++ [LF] ++ info)],
        Exited 2, ∅).
Proof.
  intros E.
  assert (H1 : In 102 (U "fios")) by (left; reflexivity).
  split; [exact H1|].
  exact (missing_value_exits Demo.format_beyond 102 ∅ [] H1).
Defined.
